(** * A range tree over a dense array: shallow embedding and verification

    The program under study is [algorithms/range_tree.cpp]: a complete
    binary tree stored in an array [nodes[TREE_SIZE]], with point update
    [insert] and prefix aggregation [sum].  The C++ source fixes the depth
    [D = 16]; every definition below takes the depth as a parameter so that
    the same text covers the small tree drawn in the header comment of the
    source ([D = 3]) and the compiled constant. *)

From Stdlib Require Import ZArith Lia List Bool.
From stdpp Require Import base list.
Import ListNotations.
Local Open Scope Z_scope.

(** ** The C++ [int] type *)

(** [int] is a 32-bit two's complement integer.  Values live in [Z]; every
    arithmetic operator of the source that can leave the range is followed
    by an explicit [wrap].  C++ leaves signed overflow undefined; the model
    wraps, as the usual compilers do.  A shift count outside [[0, 31]] is
    undefined as well; the model shifts in [Z] and wraps.  Such a count can
    only come from the metadata of the uninitialised slot 0, and every
    theorem below holds for any content of that slot. *)
Module Int.

Definition min_int : Z := - 2 ^ 31.
Definition max_int : Z := 2 ^ 31 - 1.

Definition in_range (z : Z) : Prop := min_int <= z <= max_int.

Definition wrap (z : Z) : Z := (z + 2 ^ 31) mod 2 ^ 32 - 2 ^ 31.

Definition add (a b : Z) : Z := wrap (a + b).
Definition sub (a b : Z) : Z := wrap (a - b).
Definition mul (a b : Z) : Z := wrap (a * b).
Definition shl (a n : Z) : Z := wrap (Z.shiftl a n).
Definition shr (a n : Z) : Z := Z.shiftr a n.

End Int.

(** ** class Node *)

Module Node.

Record t : Type := mk { level : Z; ni : Z; val : Z }.

(** [Node(int d, int _ni)]: the constructor used by the tree. *)
Definition make (d _ni : Z) : t := {| level := d; ni := _ni; val := 0 |}.

(** [Node(int _ni)]: the loop [while (k > 1) { level += 1; k >>= 1; }]. *)
Fixpoint slow_loop (fuel : nat) (lvl k : Z) : option Z :=
  match fuel with
  | O => None
  | S fuel' =>
      if k >? 1 then slow_loop fuel' (Int.add lvl 1) (Int.shr k 1)
      else Some lvl
  end.

Definition make_slow (_ni : Z) : option t :=
  match slow_loop (S (Z.to_nat _ni)) 0 _ni with
  | Some lvl => Some {| level := lvl; ni := _ni; val := 0 |}
  | None => None
  end.

(** [node.val += v] *)
Definition add_val (n : t) (v : Z) : t :=
  {| level := level n; ni := ni n; val := Int.add (val n) v |}.

Section Methods.
Variable D : Z.

Definition blevel (n : t) : Z := Int.sub D (level n).

Definition leveli (n : t) : Z := Int.sub (ni n) (Int.shl 1 (level n)).

Definition upper_li (n : t) : Z :=
  let leaf_coverage := Int.shl 1 (blevel n) in
  Int.mul (Int.add (leveli n) 1) leaf_coverage.

Definition lower_li (n : t) : Z :=
  let leaf_coverage := Int.shl 1 (blevel n) in
  Int.mul (leveli n) leaf_coverage.
End Methods.

End Node.

(** ** class RangeTree *)

Module RangeTree.

Record t : Type := mk { nodes : list Node.t }.

(** Every evaluation of [nodes[i]] is logged: [Rd] when the slot is only
    read, [Wr] when it is assigned. *)
Inductive access : Type :=
| Rd (slot : Z)
| Wr (slot : Z).

Definition slot_of (a : access) : Z :=
  match a with Rd i => i | Wr i => i end.

Definition is_read (a : access) : bool :=
  match a with Rd _ => true | Wr _ => false end.

(** Member functions run in a monad that threads the tree, collects the
    log of array accesses and fails on an index outside the array (which
    the source leaves undefined) or on exhausted loop fuel. *)
Definition M (A : Type) : Type := t -> option (A * t * list access).

Definition ret {A : Type} (a : A) : M A := fun s => Some (a, s, []).

Definition fault {A : Type} : M A := fun _ => None.

Definition bind {A B : Type} (m : M A) (k : A -> M B) : M B :=
  fun s =>
    match m s with
    | Some (a, s1, l1) =>
        match k a s1 with
        | Some (b, s2, l2) => Some (b, s2, l1 ++ l2)
        | None => None
        end
    | None => None
    end.

Notation "'do' x <- m ; k" := (bind m (fun x => k))
  (at level 10, x name, m at level 100, k at level 200).
Notation "'exec' m ; k" := (bind m (fun _ => k))
  (at level 10, m at level 100, k at level 200).

Definition load (i : Z) : M Node.t :=
  fun s =>
    if 0 <=? i then
      match nodes s !! Z.to_nat i with
      | Some n => Some (n, s, [Rd i])
      | None => None
      end
    else None.

Definition store (i : Z) (n : Node.t) : M unit :=
  fun s =>
    if (0 <=? i) && (i <? Z.of_nat (length (nodes s))) then
      Some (tt, {| nodes := <[Z.to_nat i := n]> (nodes s) |}, [Wr i])
    else None.

(** [for (int i = lo; i < hi; i++) body(i)], for a body that leaves [i]
    alone.  As [i < hi] holds before [i++], the increment cannot wrap. *)
Fixpoint for_count (n : nat) (i : Z) (body : Z -> M unit) : M unit :=
  match n with
  | O => ret tt
  | S n' => exec body i; for_count n' (i + 1) body
  end.

Definition for_range (lo hi : Z) (body : Z -> M unit) : M unit :=
  for_count (Z.to_nat (hi - lo)) lo body.

(** Fuel that is enough for a loop [while (ni > 0)] whose every
    iteration makes [ni] smaller. *)
Definition fuel_for (ni : Z) : nat := S (Z.to_nat ni).

(** Outcome of one iteration of the loop of [sum]. *)
Inductive ctl : Type :=
| Next (ni s : Z)
| Break (s : Z).

Section WithDepth.
Variable D : Z.

Definition MAX_LEAVES : Z := Int.shl 1 D.
Definition TREE_SIZE : Z := Int.shl 1 (Int.add D 1).

(** [Node nodes[TREE_SIZE]] before the constructor body runs: the
    default constructor [Node() {}] initialises nothing, so slot [i]
    holds whatever [junk i] was there. *)
Definition uninitialised (junk : nat -> Node.t) : t :=
  {| nodes := map junk (seq 0 (Z.to_nat TREE_SIZE)) |}.

(** Body of [RangeTree()]. *)
Definition construct : M unit :=
  for_range 0 (D + 1) (fun d =>
    let start := Int.shl 1 d in
    let end_ := Int.shl 2 d in
    for_range start end_ (fun ni => store ni (Node.make d ni))).

Definition parent_i (ni : Z) : Z := Z.quot ni 2.

Definition node_i (li : Z) : Z := Int.add li MAX_LEAVES.

Fixpoint insert_loop (fuel : nat) (v ni : Z) : M unit :=
  match fuel with
  | O => fault
  | S fuel' =>
      if ni >? 0 then
        do node <- load ni;
        exec store ni (Node.add_val node v);
        insert_loop fuel' v (Int.shr ni 1)
      else ret tt
  end.

Definition insert (li v : Z) : M unit :=
  let ni := node_i li in
  insert_loop (fuel_for ni) v ni.

(** Start slot of [sum]: [upper_leaf_bound - 1 + MAX_LEAVES]. *)
Definition sum_start (upper_leaf_bound : Z) : Z :=
  Int.add (Int.sub upper_leaf_bound 1) MAX_LEAVES.

(** One pass through the body of [while (ni > 0)] in [sum].  The
    operand [nodes[parenti].upper_li()] of [&&] is evaluated first. *)
Definition sum_body (upper_leaf_bound ni s : Z) : M ctl :=
  let parenti := Int.shr ni 1 in
  do parent <- load parenti;
  if (Node.upper_li D parent <=? upper_leaf_bound) && (ni >? 1) then
    ret (Next parenti s)
  else
    do self <- load ni;
    let s' := Int.add s (Node.val self) in
    if Node.leveli self >? 0 then ret (Next (Int.sub ni 1) s')
    else ret (Break s').

Fixpoint sum_loop (fuel : nat) (upper_leaf_bound ni s : Z) : M Z :=
  match fuel with
  | O => fault
  | S fuel' =>
      if ni >? 0 then
        do c <- sum_body upper_leaf_bound ni s;
        match c with
        | Next ni' s' => sum_loop fuel' upper_leaf_bound ni' s'
        | Break s' => ret s'
        end
      else ret s
  end.

Definition sum (upper_leaf_bound : Z) : M Z :=
  let ni := sum_start upper_leaf_bound in
  sum_loop (fuel_for ni) upper_leaf_bound ni 0.

(** A tree right after [RangeTree()]. *)
Definition new (junk : nat -> Node.t) : option t :=
  match construct (uninitialised junk) with
  | Some (_, s, _) => Some s
  | None => None
  end.

(** [insert(li, v)] for every pair of a list, in order. *)
Fixpoint insert_all (ops : list (Z * Z)) : M unit :=
  match ops with
  | [] => ret tt
  | (li, v) :: ops' => exec insert li v; insert_all ops'
  end.

(** The tree after construction and a sequence of inserts. *)
Definition after (junk : nat -> Node.t) (ops : list (Z * Z)) : option t :=
  match (exec construct; insert_all ops) (uninitialised junk) with
  | Some (_, s, _) => Some s
  | None => None
  end.

(** The value [sum(k)] returns in that tree. *)
Definition query (junk : nat -> Node.t) (ops : list (Z * Z)) (k : Z)
  : option Z :=
  match after junk ops with
  | Some s =>
      match sum k s with
      | Some (r, _, _) => Some r
      | None => None
      end
  | None => None
  end.

(** The caller's idiom given above [sum] in the source:
    [sum(upper_bound) - sum(lower_bound)]. *)
Definition range_sum (lower_bound upper_bound : Z) : M Z :=
  do a <- sum upper_bound;
  do b <- sum lower_bound;
  ret (Int.sub a b).

(** Two calls in a row with the same bound. *)
Definition sum_twice (upper_leaf_bound : Z) : M (Z * Z) :=
  do a <- sum upper_leaf_bound;
  do b <- sum upper_leaf_bound;
  ret (a, b).
End WithDepth.

End RangeTree.

(** ** Specification vocabulary *)

(** Depths for which [TREE_SIZE] and the bound [2 << d] of the constructor
    fit in an [int]. *)
Definition depth_ok (D : Z) : Prop := 0 <= D <= 29.

(** An insert history is a list of pairs [(li, v)], oldest first. *)
Definition valid_ops (D : Z) (ops : list (Z * Z)) : bool :=
  forallb (fun op => (0 <=? fst op) && (fst op <? RangeTree.MAX_LEAVES D)) ops.

(** Sum, in [Z], of the [v] of all pairs with [lo <= li < hi]. *)
Definition range_total (lo hi : Z) (ops : list (Z * Z)) : Z :=
  fold_right
    (fun op acc => if (lo <=? fst op) && (fst op <? hi) then snd op + acc else acc)
    0 ops.

(** Sum, in [Z], of every [v] of the history. *)
Definition grand_total (ops : list (Z * Z)) : Z :=
  fold_right (fun op acc => snd op + acc) 0 ops.

(** Layout of the complete binary tree, as the header comment of the
    source gives it, over unbounded integers. *)
Module Shape.
Definition pos (i : Z) : Z := i - 2 ^ Z.log2 i.
Definition size (D i : Z) : Z := 2 ^ (D - Z.log2 i).
Definition lo (D i : Z) : Z := pos i * size D i.
Definition up (D i : Z) : Z := (pos i + 1) * size D i.
End Shape.

(** Sum, in [Z], of the [v] of all pairs with [li < k]. *)
Definition prefix_total (k : Z) (ops : list (Z * Z)) : Z :=
  fold_right (fun op acc => if fst op <? k then snd op + acc else acc) 0 ops.

(** The slots [n, n/2, n/4, ...], [k] of them. *)
Fixpoint path_from (k : nat) (n : Z) : list Z :=
  match k with
  | O => []
  | S k' => n :: path_from k' (n / 2)
  end.

(** From slot [n] up to the root. *)
Definition path (n : Z) : list Z := path_from (S (Z.to_nat (Z.log2 n))) n.

Definition on_path (n i : Z) : bool := existsb (Z.eqb i) (path n).

(** What [insert] logs for one slot, and for a whole path. *)
Definition touch (i : Z) : list RangeTree.access :=
  [RangeTree.Rd i; RangeTree.Wr i].

(** The reads of a walk that starts at slot [ni] and goes left [k] times
    on one level, looking at the parent before each node. *)
Fixpoint walk_left (k : nat) (ni : Z) : list RangeTree.access :=
  match k with
  | O => []
  | S k' => RangeTree.Rd (ni / 2) :: RangeTree.Rd ni :: walk_left k' (ni - 1)
  end.

(** The metadata of every slot but 0 is what the constructor wrote. *)
Definition shaped (D : Z) (s : RangeTree.t) : Prop :=
  Z.of_nat (length (RangeTree.nodes s)) = 2 ^ (D + 1) /\
  forall i, 1 <= i < 2 ^ (D + 1) ->
    exists n, RangeTree.nodes s !! Z.to_nat i = Some n /\
              Node.level n = Z.log2 i /\ Node.ni n = i.

(** Every node holds the [int] sum of the deltas of its coverage range. *)
Definition summarises (D : Z) (ops : list (Z * Z)) (s : RangeTree.t) : Prop :=
  forall i n, 1 <= i < 2 ^ (D + 1) ->
    RangeTree.nodes s !! Z.to_nat i = Some n ->
    Node.val n = Int.wrap (range_total (Node.lower_li D n) (Node.upper_li D n) ops).

(** Two contents for the storage the constructor finds: zeroed, as for an
    object with static storage duration, and arbitrary. *)
Definition zero_junk : nat -> Node.t := fun _ => Node.mk 0 0 0.
Definition odd_junk : nat -> Node.t :=
  fun i => Node.mk (-7) (Z.of_nat i + 100) 12345.

(** The constants of the source. *)
Module Contest.
Definition D : Z := 16.
Definition MAX_LEAVES : Z := RangeTree.MAX_LEAVES D.
Definition TREE_SIZE : Z := RangeTree.TREE_SIZE D.
End Contest.

(** The history of the scenario with three inserts. *)
Definition scenario : list (Z * Z) := [(3, 5); (3, 2); (6, 10)].

(** The log of [n] assignments to consecutive slots, from slot [i] on. *)
Fixpoint writes_from (n : nat) (i : Z) : list RangeTree.access :=
  match n with
  | O => []
  | S n' => RangeTree.Wr i :: writes_from n' (i + 1)
  end.

(** Two histories give every leaf the same [int] total. *)
Definition same_leaf_totals (D : Z) (ops1 ops2 : list (Z * Z)) : bool :=
  forallb
    (fun li => Int.wrap (range_total li (li + 1) ops1)
               =? Int.wrap (range_total li (li + 1) ops2))
    (map Z.of_nat (seq 0 (Z.to_nat (RangeTree.MAX_LEAVES D)))).

(** ** Arithmetic of [int] *)

Module IntFacts.
Import Int.

(** Closes a goal that says a value is an [int], by linear arithmetic. *)
Ltac fits := unfold Int.in_range, Int.min_int, Int.max_int in *; lia.

Lemma wrap_small z : in_range z -> wrap z = z.
Proof.
  unfold in_range, min_int, max_int, wrap. intros H.
  rewrite Z.mod_small; lia.
Qed.

Lemma wrap_in_range z : in_range (wrap z).
Proof.
  unfold in_range, min_int, max_int, wrap.
  pose proof (Z.mod_pos_bound (z + 2 ^ 31) (2 ^ 32)). lia.
Qed.

Lemma wrap_add_l a b : wrap (wrap a + b) = wrap (a + b).
Proof.
  unfold wrap.
  replace ((a + 2 ^ 31) mod 2 ^ 32 - 2 ^ 31 + b + 2 ^ 31)
    with ((a + 2 ^ 31) mod 2 ^ 32 + b) by lia.
  rewrite Zplus_mod_idemp_l. f_equal. f_equal. lia.
Qed.

Lemma wrap_add_r a b : wrap (a + wrap b) = wrap (a + b).
Proof. rewrite (Z.add_comm a), wrap_add_l. f_equal. lia. Qed.

Lemma add_wrap a b : add (wrap a) (wrap b) = wrap (a + b).
Proof. unfold add. now rewrite wrap_add_l, wrap_add_r. Qed.

Lemma pow2_le_29 n : 0 <= n <= 29 -> 1 <= 2 ^ n <= 2 ^ 29.
Proof.
  intros H. split.
  - pose proof (Z.pow_pos_nonneg 2 n). lia.
  - apply Z.pow_le_mono_r; lia.
Qed.

Lemma shl_1 n : 0 <= n <= 30 -> shl 1 n = 2 ^ n.
Proof.
  intros H. unfold shl. rewrite Z.shiftl_1_l. apply wrap_small.
  unfold in_range, min_int, max_int.
  assert (1 <= 2 ^ n <= 2 ^ 30).
  { split; [pose proof (Z.pow_pos_nonneg 2 n); lia | apply Z.pow_le_mono_r; lia]. }
  lia.
Qed.

Lemma shl_2 n : 0 <= n <= 29 -> shl 2 n = 2 ^ (n + 1).
Proof.
  intros H. unfold shl. rewrite Z.shiftl_mul_pow2 by lia.
  rewrite Z.pow_add_r by lia. change (2 ^ 1) with 2.
  rewrite Z.mul_comm. apply wrap_small.
  unfold in_range, min_int, max_int.
  pose proof (pow2_le_29 n H). lia.
Qed.

Lemma shr_1 a : shr a 1 = a / 2.
Proof. unfold shr. now rewrite Z.shiftr_div_pow2 by lia. Qed.

Lemma add_small a b : in_range (a + b) -> add a b = a + b.
Proof. apply wrap_small. Qed.

Lemma sub_small a b : in_range (a - b) -> sub a b = a - b.
Proof. apply wrap_small. Qed.

Lemma mul_small a b : in_range (a * b) -> mul a b = a * b.
Proof. apply wrap_small. Qed.

End IntFacts.

(** ** Arithmetic of the layout *)

Module ShapeFacts.
Import Shape.

Lemma level_facts D i :
  0 <= D -> 1 <= i < 2 ^ (D + 1) ->
  0 <= Z.log2 i <= D /\
  2 ^ Z.log2 i <= i < 2 * 2 ^ Z.log2 i /\
  2 ^ Z.log2 i * 2 ^ (D - Z.log2 i) = 2 ^ D /\
  1 <= 2 ^ Z.log2 i /\ 1 <= 2 ^ (D - Z.log2 i).
Proof.
  intros HD Hi.
  pose proof (Z.log2_nonneg i) as Hl0.
  pose proof (Z.log2_spec i ltac:(lia)) as Hs.
  rewrite Z.pow_succ_r in Hs by lia.
  assert (Z.log2 i < D + 1) as Hl by (apply Z.log2_lt_pow2; lia).
  pose proof (Z.pow_pos_nonneg 2 (D - Z.log2 i)).
  repeat split; try lia.
  rewrite <- Z.pow_add_r by lia. f_equal. lia.
Qed.

Lemma log2_half i : 2 <= i -> Z.log2 (i / 2) = Z.log2 i - 1.
Proof.
  intros Hi.
  pose proof (Z.log2_spec i ltac:(lia)) as Hs.
  assert (1 <= Z.log2 i) as Hl.
  { change 1 with (Z.log2 2). apply Z.log2_le_mono. lia. }
  apply Z.log2_unique; [lia|].
  replace (Z.succ (Z.log2 i - 1)) with (Z.log2 i) by lia.
  rewrite Z.pow_succ_r in Hs by lia.
  replace (2 ^ Z.log2 i) with (2 * 2 ^ (Z.log2 i - 1)) in *
    by (rewrite <- Z.pow_succ_r by lia; f_equal; lia).
  pose proof (Z.div_mod i 2 ltac:(lia)).
  pose proof (Z.mod_pos_bound i 2 ltac:(lia)).
  lia.
Qed.

Lemma log2_pred i : 1 <= i -> 0 < pos i -> Z.log2 (i - 1) = Z.log2 i.
Proof.
  unfold pos. intros Hi Hp.
  pose proof (Z.log2_spec i ltac:(lia)) as Hs.
  apply Z.log2_unique; [apply Z.log2_nonneg | lia].
Qed.

Lemma log2_leaf D i : 0 <= D -> 2 ^ D <= i < 2 ^ (D + 1) -> Z.log2 i = D.
Proof.
  intros HD Hi. apply Z.log2_unique; [lia|].
  replace (Z.succ D) with (D + 1) by lia. lia.
Qed.

(** Coverage ranges are non-empty and lie inside [[0, MAX_LEAVES]]. *)
Lemma range_bounds D i :
  0 <= D -> 1 <= i < 2 ^ (D + 1) ->
  0 <= pos i /\ 1 <= size D i /\ up D i = lo D i + size D i /\
  0 <= lo D i /\ up D i <= 2 ^ D /\
  (pos i + 1) * size D i <= 2 ^ D.
Proof.
  intros HD Hi. unfold up, lo, size, pos.
  destruct (level_facts D i HD Hi) as (Hl & Hb & Hm & HP & HS).
  repeat split; try nia.
Qed.

(** A node and its parent. *)
Lemma parent_range D i :
  0 <= D -> 2 <= i < 2 ^ (D + 1) ->
  1 <= i / 2 < 2 ^ (D + 1) /\ i / 2 < i /\
  size D (i / 2) = 2 * size D i /\
  up D (i / 2) = up D i + (1 - i mod 2) * size D i /\
  lo D (i / 2) = lo D i - (i mod 2) * size D i.
Proof.
  intros HD Hi.
  pose proof (Z.div_mod i 2 ltac:(lia)) as Hdm.
  pose proof (Z.mod_pos_bound i 2 ltac:(lia)) as Hmb.
  assert (1 <= i / 2 < 2 ^ (D + 1)) as Hp by lia.
  destruct (level_facts D i HD ltac:(lia)) as (Hl & Hb & Hm & HP & HS).
  pose proof (log2_half i ltac:(lia)) as Hh.
  assert (1 <= Z.log2 i) as Hl1 by (pose proof (Z.log2_nonneg (i / 2)); lia).
  assert (size D (i / 2) = 2 * size D i) as Hsz.
  { unfold size. rewrite Hh.
    replace (D - (Z.log2 i - 1)) with (Z.succ (D - Z.log2 i)) by lia.
    rewrite Z.pow_succ_r by lia. reflexivity. }
  assert (2 ^ Z.log2 i = 2 * 2 ^ Z.log2 (i / 2)) as Hpw.
  { rewrite Hh. rewrite <- Z.pow_succ_r by lia. f_equal. lia. }
  repeat split; try lia.
  - unfold up. rewrite Hsz. unfold pos. nia.
  - unfold lo. rewrite Hsz. unfold pos. nia.
Qed.

(** A node and its left neighbour on the same level. *)
Lemma left_range D i :
  0 <= D -> 1 <= i < 2 ^ (D + 1) -> 0 < pos i ->
  1 <= i - 1 /\ Z.log2 (i - 1) = Z.log2 i /\
  pos (i - 1) = pos i - 1 /\
  size D (i - 1) = size D i /\ up D (i - 1) = lo D i.
Proof.
  intros HD Hi Hp.
  pose proof (log2_pred i ltac:(lia) Hp) as Hl.
  destruct (level_facts D i HD Hi) as (_ & Hb & _ & HP & _).
  unfold up, lo, size, pos in *. rewrite Hl.
  repeat split; lia.
Qed.

Lemma leftmost_range D i : pos i = 0 -> lo D i = 0.
Proof. unfold lo. intros ->. lia. Qed.

Lemma leaf_range D i :
  0 <= D -> 2 ^ D <= i < 2 ^ (D + 1) ->
  Z.log2 i = D /\ size D i = 1 /\ lo D i = i - 2 ^ D /\ up D i = i - 2 ^ D + 1.
Proof.
  intros HD Hi. pose proof (log2_leaf D i HD Hi) as Hl.
  unfold up, lo, size, pos. rewrite Hl, Z.sub_diag. cbn. lia.
Qed.

Lemma root_range D : 0 <= D -> lo D 1 = 0 /\ up D 1 = 2 ^ D /\ pos 1 = 0.
Proof.
  intros HD. unfold up, lo, size, pos. cbn. rewrite Z.sub_0_r. lia.
Qed.

(** In slot coordinates node [i] covers [[i * size, (i + 1) * size)]. *)
Lemma covers_iff_div D i li :
  0 <= D -> 1 <= i < 2 ^ (D + 1) ->
  (lo D i <= li < up D i) <-> (li + 2 ^ D) / 2 ^ (D - Z.log2 i) = i.
Proof.
  intros HD Hi.
  destruct (level_facts D i HD Hi) as (Hl & Hb & Hm & HP & HS).
  unfold up, lo, size, pos. split.
  - intros H. symmetry. apply Z.div_unique with (r := li + 2 ^ D - 2 ^ (D - Z.log2 i) * i); nia.
  - intros H.
    pose proof (Z.div_mod (li + 2 ^ D) (2 ^ (D - Z.log2 i)) ltac:(lia)) as Hdm.
    pose proof (Z.mod_pos_bound (li + 2 ^ D) (2 ^ (D - Z.log2 i)) ltac:(lia)) as Hmb.
    rewrite H in Hdm. nia.
Qed.

End ShapeFacts.

(** ** The methods of [Node] on a well-formed slot *)

Module NodeFacts.
Import Int IntFacts Shape ShapeFacts.

Lemma constants D :
  depth_ok D ->
  RangeTree.MAX_LEAVES D = 2 ^ D /\ RangeTree.TREE_SIZE D = 2 ^ (D + 1) /\
  1 <= 2 ^ D <= 2 ^ 29 /\ 2 ^ (D + 1) = 2 * 2 ^ D.
Proof.
  unfold depth_ok. intros HD.
  unfold RangeTree.MAX_LEAVES, RangeTree.TREE_SIZE.
  rewrite add_small by fits.
  rewrite !shl_1 by lia.
  pose proof (pow2_le_29 D HD).
  rewrite Z.pow_add_r by lia. change (2 ^ 1) with 2. lia.
Qed.

Lemma methods D n i :
  depth_ok D -> 1 <= i < 2 ^ (D + 1) ->
  Node.level n = Z.log2 i -> Node.ni n = i ->
  Node.blevel D n = D - Z.log2 i /\
  Node.leveli n = pos i /\
  Node.lower_li D n = lo D i /\
  Node.upper_li D n = up D i.
Proof.
  intros HD Hi Hl Hn.
  destruct (constants D HD) as (_ & _ & HN & HN2).
  unfold depth_ok in HD.
  destruct (level_facts D i ltac:(lia) Hi) as (Hl' & Hb & Hm & HP & HS).
  destruct (range_bounds D i ltac:(lia) Hi) as (Hp0 & Hs1 & Hul & Hlo & Hup & Hup').
  assert (Node.blevel D n = D - Z.log2 i) as Hbl.
  { unfold Node.blevel. rewrite Hl.
    apply sub_small. fits. }
  assert (Node.leveli n = pos i) as Hli.
  { unfold Node.leveli, pos. rewrite Hl, Hn, shl_1 by lia.
    apply sub_small. fits. }
  assert (shl 1 (Node.blevel D n) = size D i) as Hsz.
  { rewrite Hbl. unfold size. apply shl_1. lia. }
  repeat split; trivial.
  - unfold Node.lower_li. rewrite Hsz, Hli.
    apply mul_small. unfold in_range, min_int, max_int.
    fold (lo D i). lia.
  - unfold Node.upper_li. rewrite Hsz, Hli.
    rewrite add_small by (unfold in_range, min_int, max_int; nia).
    apply mul_small. unfold in_range, min_int, max_int.
    fold (up D i). lia.
Qed.

End NodeFacts.

(** ** Sums over a history *)

Module TotalFacts.

Lemma range_total_cons lo hi op ops :
  range_total lo hi (op :: ops) =
  (if (lo <=? fst op) && (fst op <? hi) then snd op else 0)
  + range_total lo hi ops.
Proof. unfold range_total. cbn. destruct (_ && _); lia. Qed.

Lemma range_total_app lo hi a b :
  range_total lo hi (a ++ b) = range_total lo hi a + range_total lo hi b.
Proof.
  induction a as [|op a IH]; [reflexivity|].
  rewrite <- app_comm_cons, !range_total_cons, IH. lia.
Qed.

Lemma range_total_empty lo ops : range_total lo lo ops = 0.
Proof.
  induction ops as [|op ops IH]; [reflexivity|].
  rewrite range_total_cons, IH.
  destruct (lo <=? fst op) eqn:E1, (fst op <? lo) eqn:E2; cbn; lia.
Qed.

Lemma range_total_split lo mid hi ops :
  lo <= mid <= hi ->
  range_total lo hi ops = range_total lo mid ops + range_total mid hi ops.
Proof.
  intros H. induction ops as [|op ops IH]; [reflexivity|].
  rewrite !range_total_cons, IH.
  destruct (lo <=? fst op) eqn:E1, (fst op <? hi) eqn:E2,
           (fst op <? mid) eqn:E3, (mid <=? fst op) eqn:E4; cbn; lia.
Qed.

Lemma range_total_single lo hi li v :
  range_total lo hi [(li, v)] = if (lo <=? li) && (li <? hi) then v else 0.
Proof. rewrite range_total_cons. cbn. destruct (_ && _); lia. Qed.

Lemma range_total_all D ops :
  valid_ops D ops = true ->
  range_total 0 (RangeTree.MAX_LEAVES D) ops = grand_total ops.
Proof.
  induction ops as [|op ops IH]; [reflexivity|].
  intros H. cbn in H. apply andb_true_iff in H as [H1 H2].
  rewrite range_total_cons, H1, IH by assumption. reflexivity.
Qed.

Lemma valid_ops_app D a b :
  valid_ops D (a ++ b) = valid_ops D a && valid_ops D b.
Proof. unfold valid_ops. apply forallb_app. Qed.

End TotalFacts.

(** ** Running the monad *)

Module TreeFacts.
Import Int IntFacts Shape ShapeFacts NodeFacts TotalFacts RangeTree.

Lemma load_Some i s n :
  0 <= i -> nodes s !! Z.to_nat i = Some n ->
  load i s = Some (n, s, [Rd i]).
Proof.
  intros Hi Hn. unfold load.
  destruct (Z.leb_spec 0 i); [|lia]. now rewrite Hn.
Qed.

Lemma store_Some i n s :
  0 <= i < Z.of_nat (length (nodes s)) ->
  store i n s = Some (tt, {| nodes := <[Z.to_nat i := n]> (nodes s) |}, [Wr i]).
Proof.
  intros Hi. unfold store.
  destruct (Z.leb_spec 0 i); [|lia].
  destruct (Z.ltb_spec i (Z.of_nat (length (nodes s)))); [|lia].
  reflexivity.
Qed.

Lemma shaped_slot0 D s :
  0 <= D -> shaped D s -> exists n0, nodes s !! Z.to_nat 0 = Some n0.
Proof.
  intros HD [Hlen _].
  assert (0 < 2 ^ (D + 1)) by (apply Z.pow_pos_nonneg; lia).
  destruct (lookup_lt_is_Some_2 (nodes s) (Z.to_nat 0)) as [n0 Hn0]; [lia|].
  now exists n0.
Qed.

(** What a read of a well-formed slot returns. *)
Lemma shaped_slot D s i :
  depth_ok D -> shaped D s -> 1 <= i < 2 ^ (D + 1) ->
  exists n, nodes s !! Z.to_nat i = Some n /\
    Node.level n = Z.log2 i /\ Node.ni n = i /\
    Node.leveli n = pos i /\
    Node.lower_li D n = lo D i /\ Node.upper_li D n = up D i.
Proof.
  intros HD [_ Hs] Hi. destruct (Hs i Hi) as (n & Hn & Hl & Hni).
  destruct (methods D n i HD Hi Hl Hni) as (_ & H1 & H2 & H3).
  exists n. repeat split; assumption.
Qed.

(** One iteration of the loop of [sum], on any well-formed tree. *)
Lemma sum_body_cases D s ub ni acc :
  depth_ok D -> shaped D s -> 1 <= ni < 2 ^ (D + 1) ->
  exists c lg, sum_body D ub ni acc s = Some (c, s, lg) /\
    ((c = Next (ni / 2) acc /\ lg = [Rd (ni / 2)] /\
      1 < ni /\ up D (ni / 2) <= ub)
     \/
     (exists n, nodes s !! Z.to_nat ni = Some n /\
        lg = [Rd (ni / 2); Rd ni] /\
        (ni = 1 \/ (1 < ni /\ ub < up D (ni / 2))) /\
        ((c = Next (ni - 1) (Int.add acc (Node.val n)) /\ 0 < pos ni)
         \/ (c = Break (Int.add acc (Node.val n)) /\ pos ni = 0)))).
Proof.
  intros HD Hs Hni.
  destruct (constants D HD) as (_ & _ & HN & HN2).
  destruct (shaped_slot D s ni HD Hs Hni) as (n & Hn & _ & _ & Hli & _ & _).
  assert (Int.sub ni 1 = ni - 1) as Hsub.
  { apply sub_small. fits. }
  assert (exists p, nodes s !! Z.to_nat (ni / 2) = Some p /\
            (1 < ni -> Node.upper_li D p = up D (ni / 2))) as (p & Hp & Hup).
  { destruct (Z.eq_dec ni 1) as [->|Hne].
    - change (1 / 2) with 0.
      destruct (shaped_slot0 D s ltac:(unfold depth_ok in HD; lia) Hs) as [n0 Hn0].
      exists n0. split; [assumption | lia].
    - unfold depth_ok in HD.
      destruct (parent_range D ni ltac:(lia) ltac:(lia)) as (Hpr & _).
      destruct (shaped_slot D s (ni / 2) ltac:(unfold depth_ok; lia) Hs Hpr)
        as (p & Hp & _ & _ & _ & _ & Hup).
      exists p. split; [assumption | intros _; assumption]. }
  assert (0 <= ni / 2) as Hp0 by (apply Z.div_pos; lia).
  unfold sum_body. rewrite shr_1. unfold bind.
  rewrite (load_Some _ _ _ Hp0 Hp). cbv beta iota.
  destruct ((Node.upper_li D p <=? ub) && (ni >? 1)) eqn:Hc.
  - apply andb_true_iff in Hc as [Hc1 Hc2].
    apply Z.leb_le in Hc1. apply Z.gtb_lt in Hc2.
    rewrite Hup in Hc1 by lia.
    eexists _, _. split; [reflexivity|]. left. repeat split; trivial.
  - assert (ni = 1 \/ (1 < ni /\ ub < up D (ni / 2))) as Hwhy.
    { apply andb_false_iff in Hc as [Hc|Hc].
      - apply Z.leb_gt in Hc. destruct (Z.eq_dec ni 1); [now left|].
        right. rewrite Hup in Hc by lia. lia.
      - left. destruct (Z.gtb_spec ni 1); [discriminate | lia]. }
    assert (0 <= ni) as Hni0 by lia.
    rewrite (load_Some _ _ _ Hni0 Hn). cbv beta iota zeta.
    rewrite Hli, Hsub.
    destruct (Z.gtb_spec (pos ni) 0) as [Hpos|Hpos].
    + eexists _, _. split; [reflexivity|]. right. exists n.
      repeat split; trivial. left. split; [reflexivity | lia].
    + eexists _, _. split; [reflexivity|]. right. exists n.
      repeat split; trivial. right. split; [reflexivity|].
      destruct (range_bounds D ni ltac:(unfold depth_ok in HD; lia) Hni). lia.
Qed.

Lemma slot_val D ops s i n :
  depth_ok D -> shaped D s -> summarises D ops s ->
  1 <= i < 2 ^ (D + 1) -> nodes s !! Z.to_nat i = Some n ->
  Node.val n = wrap (range_total (lo D i) (up D i) ops).
Proof.
  intros HD Hs Hv Hi Hn.
  destruct (shaped_slot D s i HD Hs Hi) as (n' & Hn' & _ & _ & _ & Hlo & Hup).
  rewrite Hn in Hn'. injection Hn' as <-.
  rewrite (Hv i n Hi Hn), Hlo, Hup. reflexivity.
Qed.

Lemma sum_loop_S D fuel ub ni acc :
  sum_loop D (S fuel) ub ni acc =
  if ni >? 0 then
    bind (sum_body D ub ni acc) (fun c =>
      match c with
      | Next ni' s' => sum_loop D fuel ub ni' s'
      | Break s' => ret s'
      end)
  else ret acc.
Proof. reflexivity. Qed.

(** The loop of [sum] for a bound in [[1, MAX_LEAVES]].  The invariant:
    [acc] is the total of the leaves from the right end of the current
    node up to the bound, and that stretch is shorter than the node (or
    than twice the node, when the node is a right child). *)
Lemma sum_loop_prefix D ops s ub :
  depth_ok D -> shaped D s -> summarises D ops s -> 1 <= ub <= 2 ^ D ->
  forall fuel ni acc,
    (Z.to_nat ni < fuel)%nat -> 1 <= ni < 2 ^ (D + 1) ->
    up D ni <= ub < up D ni + size D ni * (1 + ni mod 2) ->
    acc = wrap (range_total (up D ni) ub ops) ->
    exists lg,
      sum_loop D fuel ub ni acc s = Some (wrap (range_total 0 ub ops), s, lg) /\
      Forall (fun a => is_read a = true /\ 0 <= slot_of a < 2 ^ (D + 1)) lg /\
      (ub < 2 ^ D -> Forall (fun a => 1 <= slot_of a) lg) /\
      (ub = 2 ^ D -> In (Rd 0) lg) /\
      (exists nf, 1 <= nf < 2 ^ (D + 1) /\ pos nf = 0 /\ last lg = Some (Rd nf)).
Proof.
  intros HD Hs Hv Hub.
  assert (0 <= D) as HD0 by (unfold depth_ok in HD; lia).
  induction fuel as [|fuel IH]; intros ni acc Hfuel Hni Hinv Hacc; [lia|].
  rewrite sum_loop_S.
  destruct (Z.gtb_spec ni 0) as [_|]; [|lia].
  destruct (sum_body_cases D s ub ni acc HD Hs Hni) as (c & lg0 & Hbody & Hcase).
  unfold bind. rewrite Hbody. cbv beta iota.
  destruct (range_bounds D ni HD0 Hni) as (Hp0 & Hsz & Hul & Hlo & Hup & _).
  pose proof (Z.mod_pos_bound ni 2 ltac:(lia)) as Hmod.
  destruct (root_range D HD0) as (_ & Hroot & Hpos1).
  destruct Hcase as [(-> & -> & Hgt & Hclimb)
                    | (n & Hn & -> & Hwhy & Hstep)].
  - (* move to the parent *)
    destruct (parent_range D ni HD0 ltac:(lia)) as (Hpr & Hlt & Hpsz & Hpup & _).
    assert (ni mod 2 = 1) as Hodd.
    { destruct (Z.eq_dec (ni mod 2) 0) as [E|E]; [|lia].
      rewrite E in Hinv, Hpup. lia. }
    rewrite Hodd in Hinv, Hpup.
    destruct (IH (ni / 2) acc)
      as (lg & Hrun & Hrd & Hpos & Hzero & nf & Hnf & Hnf0 & Hlast).
    + lia.
    + assumption.
    + pose proof (Z.mod_pos_bound (ni / 2) 2 ltac:(lia)). nia.
    + rewrite Hacc. do 2 f_equal. lia.
    + rewrite Hrun. eexists. split; [reflexivity|].
      split; [|split; [|split]].
      * constructor; [cbn; lia | assumption].
      * intros Hlt'. constructor; [cbn; lia | auto].
      * intros Heq. right. auto.
      * exists nf. cbn [app]. rewrite last_cons, Hlast. auto.
  - pose proof (slot_val D ops s ni n HD Hs Hv Hni Hn) as Hval.
    assert (Int.add acc (Node.val n) = wrap (range_total (lo D ni) ub ops)) as Hacc'.
    { rewrite Hacc, Hval, add_wrap. f_equal.
      rewrite (range_total_split (lo D ni) (up D ni) ub) by lia. lia. }
    assert (ub < 2 ^ D -> 2 <= ni) as Hnot_root.
    { intros Hlt. destruct (Z.eq_dec ni 1) as [->|]; lia. }
    assert (0 <= ni / 2 < 2 ^ (D + 1)) as Hpar.
    { pose proof (Z.div_mod ni 2 ltac:(lia)). lia. }
    assert (2 <= ni -> 1 <= ni / 2) as Hpar1.
    { pose proof (Z.div_mod ni 2 ltac:(lia)). lia. }
    destruct Hstep as [(-> & Hpos) | (-> & Hpos)].
    + (* add the node and step left *)
      destruct (left_range D ni HD0 Hni Hpos) as (Hl1 & _ & _ & Hlsz & Hlup).
      assert (ni mod 2 = 0) as Heven.
      { destruct Hwhy as [->|[Hgt Hover]]; [lia|].
        destruct (parent_range D ni HD0 ltac:(lia)) as (_ & _ & _ & Hpup & _).
        nia. }
      assert ((ni - 1) mod 2 = 1) as Hodd.
      { pose proof (Z.div_mod ni 2 ltac:(lia)).
        symmetry. apply (Z.mod_unique (ni - 1) 2 (ni / 2 - 1) 1); lia. }
      destruct (IH (ni - 1) (Int.add acc (Node.val n)))
        as (lg & Hrun & Hrd & Hge & Hzero & nf & Hnf & Hnf0 & Hlast).
      * lia.
      * lia.
      * rewrite Hlup, Hlsz, Hodd. rewrite Heven in Hinv. nia.
      * rewrite Hlup. exact Hacc'.
      * rewrite Hrun. eexists. split; [reflexivity|].
        split; [|split; [|split]].
        -- repeat constructor; cbn; try lia; assumption.
        -- intros Hlt'. specialize (Hnot_root Hlt').
           repeat constructor; cbn; try lia. auto.
        -- intros Heq. right. right. auto.
        -- exists nf. cbn [app]. rewrite !last_cons, Hlast. auto.
    + (* left-most node: add it and stop *)
      rewrite (leftmost_range D ni Hpos) in Hacc'. rewrite Hacc'.
      eexists. split; [reflexivity|].
      split; [|split; [|split]].
      * repeat constructor; cbn; lia.
      * intros Hlt'. specialize (Hnot_root Hlt').
        repeat constructor; cbn; lia.
      * intros Heq. left.
        destruct Hwhy as [->|[Hgt Hover]]; [reflexivity|].
        destruct (parent_range D ni HD0 ltac:(lia)) as (Hpr & _).
        destruct (range_bounds D (ni / 2) HD0 Hpr) as (_ & _ & _ & _ & Hpu & _).
        lia.
      * exists ni. auto.
Qed.

Lemma sum_start_eq D ub :
  depth_ok D -> 0 <= ub <= 2 ^ D -> sum_start D ub = ub - 1 + 2 ^ D.
Proof.
  intros HD Hub. destruct (constants D HD) as (HM & _ & HN & _).
  unfold sum_start. rewrite HM.
  rewrite sub_small by fits.
  apply add_small. fits.
Qed.

(** [sum(ub)] for a bound in [[1, MAX_LEAVES]]: the value, the state and
    the slots read. *)
Lemma sum_prefix D ops s ub :
  depth_ok D -> shaped D s -> summarises D ops s -> 1 <= ub <= 2 ^ D ->
  exists lg,
    sum D ub s = Some (wrap (range_total 0 ub ops), s, lg) /\
    Forall (fun a => is_read a = true /\ 0 <= slot_of a < 2 ^ (D + 1)) lg /\
    (ub < 2 ^ D -> Forall (fun a => 1 <= slot_of a) lg) /\
    (ub = 2 ^ D -> In (Rd 0) lg) /\
    (exists nf, 1 <= nf < 2 ^ (D + 1) /\ pos nf = 0 /\ last lg = Some (Rd nf)).
Proof.
  intros HD Hs Hv Hub.
  destruct (constants D HD) as (_ & _ & HN & HN2).
  assert (0 <= D) as HD0 by (unfold depth_ok in HD; lia).
  unfold sum. rewrite sum_start_eq by (trivial; lia).
  destruct (leaf_range D (ub - 1 + 2 ^ D) HD0 ltac:(lia)) as (_ & Hsz & _ & Hup).
  pose proof (Z.mod_pos_bound (ub - 1 + 2 ^ D) 2 ltac:(lia)).
  apply (sum_loop_prefix D ops s ub HD Hs Hv Hub).
  - unfold fuel_for. lia.
  - lia.
  - rewrite Hup, Hsz. lia.
  - replace (up D (ub - 1 + 2 ^ D)) with ub by lia.
    now rewrite range_total_empty.
Qed.

(** The loop of [sum] for the bound 0, started on level [D - 1]: no
    parent has an upper end [<= 0], so the walk goes left along the
    level and adds every node of it. *)
Lemma sum_loop_zero D ops s :
  depth_ok D -> 1 <= D -> shaped D s -> summarises D ops s ->
  forall fuel ni acc,
    (Z.to_nat ni < fuel)%nat -> 2 ^ (D - 1) <= ni < 2 ^ D ->
    acc = wrap (range_total (up D ni) (2 ^ D) ops) ->
    sum_loop D fuel 0 ni acc s =
    Some (wrap (range_total 0 (2 ^ D) ops), s,
          walk_left (Z.to_nat (ni - 2 ^ (D - 1) + 1)) ni).
Proof.
  intros HD HD1 Hs Hv.
  assert (0 <= D) as HD0 by lia.
  destruct (constants D HD) as (_ & _ & HN & HN2).
  assert (2 ^ D = 2 * 2 ^ (D - 1)) as Hhalf.
  { rewrite <- Z.pow_succ_r by lia. f_equal. lia. }
  assert (1 <= 2 ^ (D - 1)) as Hpos1.
  { pose proof (Z.pow_pos_nonneg 2 (D - 1)). lia. }
  induction fuel as [|fuel IH]; intros ni acc Hfuel Hni Hacc; [lia|].
  assert (1 <= ni < 2 ^ (D + 1)) as Hni' by lia.
  assert (Z.log2 ni = D - 1) as Hlog.
  { apply log2_leaf; [lia|]. replace (D - 1 + 1) with D by lia. lia. }
  rewrite sum_loop_S.
  destruct (Z.gtb_spec ni 0) as [_|]; [|lia].
  destruct (sum_body_cases D s 0 ni acc HD Hs Hni') as (c & lg0 & Hbody & Hcase).
  unfold bind. rewrite Hbody. cbv beta iota.
  destruct (range_bounds D ni HD0 Hni') as (Hp0 & Hsz & Hul & Hlo & Hup & _).
  assert (0 <= ni / 2 < 2 ^ (D + 1)) as Hpar.
  { pose proof (Z.div_mod ni 2 ltac:(lia)).
    pose proof (Z.mod_pos_bound ni 2 ltac:(lia)). lia. }
  destruct Hcase as [(-> & -> & Hgt & Hclimb)
                    | (n & Hn & -> & Hwhy & Hstep)].
  - destruct (parent_range D ni HD0 ltac:(lia)) as (Hpr & _).
    destruct (range_bounds D (ni / 2) HD0 Hpr) as (_ & ? & ? & ? & _). lia.
  - pose proof (slot_val D ops s ni n HD Hs Hv Hni' Hn) as Hval.
    assert (Int.add acc (Node.val n) = wrap (range_total (lo D ni) (2 ^ D) ops)) as Hacc'.
    { rewrite Hacc, Hval, add_wrap. f_equal.
      rewrite (range_total_split (lo D ni) (up D ni) (2 ^ D)) by lia. lia. }
    destruct Hstep as [(-> & Hpos) | (-> & Hpos)].
    + destruct (left_range D ni HD0 Hni' Hpos) as (Hl1 & _ & _ & _ & Hlup).
      unfold pos in Hpos. rewrite Hlog in Hpos.
      rewrite (IH (ni - 1) (Int.add acc (Node.val n)));
        [| lia | lia | rewrite Hlup; exact Hacc'].
      replace (Z.to_nat (ni - 2 ^ (D - 1) + 1))
        with (S (Z.to_nat (ni - 1 - 2 ^ (D - 1) + 1))) by lia.
      reflexivity.
    + rewrite (leftmost_range D ni Hpos) in Hacc'. rewrite Hacc'.
      unfold pos in Hpos. rewrite Hlog in Hpos.
      replace (ni - 2 ^ (D - 1) + 1) with 1 by lia. reflexivity.
Qed.

Lemma sum_zero D ops s :
  depth_ok D -> 1 <= D -> shaped D s -> summarises D ops s ->
  sum D 0 s =
  Some (wrap (range_total 0 (2 ^ D) ops), s,
        walk_left (Z.to_nat (2 ^ (D - 1))) (2 ^ D - 1)).
Proof.
  intros HD HD1 Hs Hv.
  destruct (constants D HD) as (_ & _ & HN & HN2).
  assert (2 ^ D = 2 * 2 ^ (D - 1)) as Hhalf.
  { rewrite <- Z.pow_succ_r by lia. f_equal. lia. }
  assert (1 <= 2 ^ (D - 1)) as Hpos1.
  { pose proof (Z.pow_pos_nonneg 2 (D - 1)). lia. }
  unfold sum. rewrite sum_start_eq by (trivial; lia).
  replace (2 ^ D - 1) with (0 - 1 + 2 ^ D) by lia.
  replace (Z.to_nat (2 ^ (D - 1)))
    with (Z.to_nat (0 - 1 + 2 ^ D - 2 ^ (D - 1) + 1)) by lia.
  apply (sum_loop_zero D ops s HD HD1 Hs Hv).
  - unfold fuel_for. lia.
  - lia.
  - assert (Z.log2 (0 - 1 + 2 ^ D) = D - 1) as Hlog.
    { apply log2_leaf; [lia|]. replace (D - 1 + 1) with D by lia. lia. }
    assert (up D (0 - 1 + 2 ^ D) = 2 ^ D) as ->.
    { unfold up, size, pos. rewrite Hlog.
      replace (D - (D - 1)) with 1 by lia. change (2 ^ 1) with 2. lia. }
    now rewrite range_total_empty.
Qed.

(** With [D = 0] the start slot for the bound 0 is slot 0 and the loop
    is not entered. *)
Lemma sum_zero_flat s : sum 0 0 s = Some (0, s, []).
Proof. reflexivity. Qed.

End TreeFacts.

(** ** The path from a slot to the root *)

Module PathFacts.
Import Shape ShapeFacts.

Lemma path_from_In k n i :
  In i (path_from k n) <-> exists j : nat, (j < k)%nat /\ i = n / 2 ^ Z.of_nat j.
Proof.
  revert n. induction k as [|k IH]; intros n; cbn [path_from In].
  - split; [tauto | intros (j & Hj & _); lia].
  - rewrite IH. split.
    + intros [<-|(j & Hj & ->)].
      * exists 0%nat. split; [lia|]. cbn. now rewrite Z.div_1_r.
      * exists (S j). split; [lia|].
        rewrite Nat2Z.inj_succ, Z.pow_succ_r by lia.
        rewrite Z.div_div by (try apply Z.pow_pos_nonneg; lia). reflexivity.
    + intros (j & Hj & ->). destruct j as [|j].
      * left. cbn. now rewrite Z.div_1_r.
      * right. exists j. split; [lia|].
        rewrite Nat2Z.inj_succ, Z.pow_succ_r by lia.
        rewrite Z.div_div by (try apply Z.pow_pos_nonneg; lia). reflexivity.
Qed.

Lemma path_root : path 1 = [1].
Proof. reflexivity. Qed.

Lemma path_step n : 2 <= n -> path n = n :: path (n / 2).
Proof.
  intros Hn. unfold path. rewrite (log2_half n Hn).
  assert (1 <= Z.log2 n).
  { change 1 with (Z.log2 2). apply Z.log2_le_mono. lia. }
  replace (Z.to_nat (Z.log2 n)) with (S (Z.to_nat (Z.log2 n - 1))) by lia.
  reflexivity.
Qed.

Lemma path_length n : 1 <= n -> Z.of_nat (length (path n)) = Z.log2 n + 1.
Proof.
  intros Hn. unfold path.
  assert (forall k m, length (path_from k m) = k) as Hlen.
  { induction k; intros m; cbn; [reflexivity | now rewrite IHk]. }
  rewrite Hlen. pose proof (Z.log2_nonneg n). lia.
Qed.

Lemma path_range n i : 1 <= n -> In i (path n) -> 1 <= i <= n.
Proof.
  intros Hn Hin. apply path_from_In in Hin as (j & Hj & ->).
  pose proof (Z.log2_spec n ltac:(lia)) as [Hlow _].
  pose proof (Z.log2_nonneg n).
  assert (0 < 2 ^ Z.of_nat j) as Hpj by (apply Z.pow_pos_nonneg; lia).
  assert (2 ^ Z.of_nat j <= 2 ^ Z.log2 n) by (apply Z.pow_le_mono_r; lia).
  split.
  - apply Z.div_le_lower_bound; lia.
  - apply Z.div_le_upper_bound; nia.
Qed.

Lemma path_not_above n : 1 <= n -> ~ In n (path (n / 2)).
Proof.
  intros Hn Hin.
  pose proof (Z.div_mod n 2 ltac:(lia)).
  pose proof (Z.mod_pos_bound n 2 ltac:(lia)).
  destruct (Z.eq_dec n 1) as [->|Hne].
  - change (path (1 / 2)) with [0] in Hin. destruct Hin as [E|[]]. lia.
  - apply path_range in Hin; lia.
Qed.

Lemma path_NoDup n : 1 <= n -> NoDup (path n).
Proof.
  induction (Z.lt_wf 0 n) as [n _ IH]. intros Hn.
  destruct (Z.eq_dec n 1) as [->|Hne].
  - rewrite path_root. apply NoDup_cons. split; [apply not_elem_of_nil | apply NoDup_nil_2].
  - pose proof (Z.div_mod n 2 ltac:(lia)).
    pose proof (Z.mod_pos_bound n 2 ltac:(lia)).
    rewrite path_step by lia. apply NoDup_cons. split.
    + rewrite list_elem_of_In. apply path_not_above. lia.
    + apply IH; lia.
Qed.

Lemma on_path_In n i : on_path n i = true <-> In i (path n).
Proof.
  unfold on_path. rewrite existsb_exists. split.
  - intros (x & Hx & He). apply Z.eqb_eq in He. now subst.
  - intros H. exists i. split; [assumption | apply Z.eqb_refl].
Qed.

(** The path from a leaf is made of the nodes whose range holds it. *)
Lemma path_covers D li i :
  0 <= D -> 0 <= li < 2 ^ D ->
  In i (path (li + 2 ^ D)) <->
  (1 <= i < 2 ^ (D + 1) /\ lo D i <= li < up D i).
Proof.
  intros HD Hli.
  assert (2 ^ (D + 1) = 2 * 2 ^ D) as HN2.
  { rewrite Z.pow_add_r by lia. change (2 ^ 1) with 2. lia. }
  assert (2 ^ D <= li + 2 ^ D < 2 ^ (D + 1)) as Hleaf by lia.
  pose proof (log2_leaf D _ HD Hleaf) as Hlog.
  split.
  - intros Hin.
    assert (1 <= i <= li + 2 ^ D) as Hi by (apply path_range; [lia | assumption]).
    assert (1 <= i < 2 ^ (D + 1)) as Hi' by lia.
    split; [exact Hi'|].
    apply path_from_In in Hin as (j & Hj & Heq). rewrite Hlog in Hj.
    assert (Z.log2 i = D - Z.of_nat j) as Hli'.
    { rewrite Heq, <- Z.shiftr_div_pow2 by lia.
      rewrite Z.log2_shiftr by lia. rewrite Hlog. lia. }
    apply (covers_iff_div D i li HD Hi').
    rewrite Hli'. replace (D - (D - Z.of_nat j)) with (Z.of_nat j) by lia.
    now symmetry.
  - intros (Hi & Hcov).
    apply (covers_iff_div D i li HD Hi) in Hcov.
    destruct (level_facts D i HD Hi) as (Hl & _).
    apply path_from_In. exists (Z.to_nat (D - Z.log2 i)).
    rewrite Hlog. split; [lia|].
    rewrite Z2Nat.id by lia. now symmetry.
Qed.

End PathFacts.

(** ** [insert] *)

Module InsertFacts.
Import Int IntFacts Shape ShapeFacts NodeFacts TotalFacts PathFacts.
Import RangeTree TreeFacts.

Lemma insert_loop_S fuel v ni :
  insert_loop (S fuel) v ni =
  if ni >? 0 then
    bind (load ni) (fun node =>
      bind (store ni (Node.add_val node v)) (fun _ =>
        insert_loop fuel v (Int.shr ni 1)))
  else ret tt.
Proof. reflexivity. Qed.

Lemma on_path_step n i :
  2 <= n -> on_path n i = (i =? n) || on_path (n / 2) i.
Proof. intros Hn. unfold on_path. now rewrite path_step. Qed.

(** The loop of [insert] started at slot [n]: it reads and writes the
    slots of [path n], in that order, adds [v] to the [val] of each and
    leaves every other slot as it was. *)
Lemma insert_loop_spec v :
  forall fuel n s,
    (Z.to_nat n < fuel)%nat -> 1 <= n < Z.of_nat (length (nodes s)) ->
    exists s',
      insert_loop fuel v n s = Some (tt, s', flat_map touch (path n)) /\
      length (nodes s') = length (nodes s) /\
      forall i node, 0 <= i -> nodes s !! Z.to_nat i = Some node ->
        nodes s' !! Z.to_nat i =
        Some (if on_path n i then Node.add_val node v else node).
Proof.
  induction fuel as [|fuel IH]; intros n s Hfuel Hn; [lia|].
  rewrite insert_loop_S.
  destruct (Z.gtb_spec n 0) as [_|]; [|lia].
  destruct (lookup_lt_is_Some_2 (nodes s) (Z.to_nat n) ltac:(lia)) as [node0 Hnode0].
  unfold bind at 1. rewrite (load_Some n s node0 ltac:(lia) Hnode0).
  cbv beta iota. unfold bind at 1.
  rewrite (store_Some n (Node.add_val node0 v) s ltac:(lia)).
  cbv beta iota. rewrite shr_1.
  set (s1 := {| nodes := <[Z.to_nat n := Node.add_val node0 v]> (nodes s) |}).
  assert (length (nodes s1) = length (nodes s)) as Hlen1
    by (unfold s1; cbn; apply length_insert).
  assert (forall i node, 0 <= i -> nodes s !! Z.to_nat i = Some node ->
            nodes s1 !! Z.to_nat i =
            Some (if i =? n then Node.add_val node v else node)) as Hs1.
  { intros i node Hi Hlk. unfold s1. cbn.
    destruct (Z.eqb_spec i n) as [->|Hne].
    - rewrite list_lookup_insert_eq by lia. congruence.
    - rewrite list_lookup_insert_ne by lia. assumption. }
  destruct (Z.eq_dec n 1) as [->|Hne].
  - (* the root: the next test [ni > 0] fails *)
    change (1 / 2) with 0.
    destruct fuel as [|fuel]; [lia|]. rewrite insert_loop_S.
    change (0 >? 0) with false. cbv beta iota.
    exists s1. split; [reflexivity|]. split; [assumption|].
    intros i node Hi Hlk. rewrite (Hs1 i node Hi Hlk).
    unfold on_path. rewrite path_root. cbn. now rewrite orb_false_r.
  - pose proof (Z.div_mod n 2 ltac:(lia)).
    pose proof (Z.mod_pos_bound n 2 ltac:(lia)).
    destruct (IH (n / 2) s1) as (s' & Hrun & Hlen & Hlk'); [lia | lia |].
    rewrite Hrun. exists s'. split; [|split].
    + rewrite (path_step n) by lia. reflexivity.
    + congruence.
    + intros i node Hi Hlk.
      rewrite (Hlk' i _ Hi (Hs1 i node Hi Hlk)).
      rewrite (on_path_step n i) by lia. f_equal.
      destruct (Z.eqb_spec i n) as [->|Hne']; [|reflexivity].
      destruct (on_path (n / 2) n) eqn:Hon; [|reflexivity].
      apply on_path_In in Hon. apply path_not_above in Hon; [contradiction | lia].
Qed.

Lemma node_i_eq D li :
  depth_ok D -> 0 <= li < 2 ^ D -> node_i D li = li + 2 ^ D.
Proof.
  intros HD Hli. destruct (constants D HD) as (HM & _ & HN & _).
  unfold node_i. rewrite HM. apply add_small.
  fits.
Qed.

(** [insert(li, v)] on a well-formed tree. *)
Lemma insert_spec D s li v :
  depth_ok D -> shaped D s -> 0 <= li < 2 ^ D ->
  exists s',
    insert D li v s = Some (tt, s', flat_map touch (path (li + 2 ^ D))) /\
    length (nodes s') = length (nodes s) /\
    (forall i node, 0 <= i -> nodes s !! Z.to_nat i = Some node ->
       nodes s' !! Z.to_nat i =
       Some (if on_path (li + 2 ^ D) i then Node.add_val node v else node)) /\
    shaped D s' /\
    (forall ops, summarises D ops s -> summarises D (ops ++ [(li, v)]) s').
Proof.
  intros HD Hs Hli.
  destruct (constants D HD) as (_ & _ & HN & HN2).
  assert (0 <= D) as HD0 by (unfold depth_ok in HD; lia).
  pose proof Hs as [Hlen Hmeta].
  unfold insert. rewrite node_i_eq by assumption.
  destruct (insert_loop_spec v (fuel_for (li + 2 ^ D)) (li + 2 ^ D) s)
    as (s' & Hrun & Hlen' & Hlk); [unfold fuel_for; lia | lia |].
  exists s'. split; [exact Hrun|]. split; [exact Hlen'|]. split; [exact Hlk|].
  assert (shaped D s') as Hs'.
  { split; [congruence|]. intros i Hi.
    destruct (Hmeta i Hi) as (n & Hn & Hl & Hni).
    rewrite (Hlk i n ltac:(lia) Hn). eexists. split; [reflexivity|].
    destruct (on_path _ i); cbn; auto. }
  split; [exact Hs'|].
  intros ops Hv i n' Hi Hn'.
  destruct (shaped_slot D s i HD Hs Hi) as (n & Hn & Hl & Hni & _ & Hlo & Hup).
  rewrite (Hlk i n ltac:(lia) Hn) in Hn'. injection Hn' as <-.
  pose proof (slot_val D ops s i n HD Hs Hv Hi Hn) as Hval.
  assert (forall m, Node.level m = Node.level n -> Node.ni m = Node.ni n ->
            Node.lower_li D m = lo D i /\ Node.upper_li D m = up D i) as Hsame.
  { intros m Hml Hmn.
    destruct (methods D m i HD Hi ltac:(congruence) ltac:(congruence)) as (_ & _ & ? & ?).
    now split. }
  rewrite range_total_app, range_total_single.
  destruct (on_path (li + 2 ^ D) i) eqn:Hon.
  - destruct (Hsame (Node.add_val n v) eq_refl eq_refl) as [-> ->].
    apply on_path_In in Hon. apply (path_covers D li i HD0 Hli) in Hon as [_ Hcov].
    destruct (Z.leb_spec (lo D i) li); [|lia].
    destruct (Z.ltb_spec li (up D i)); [|lia].
    cbn [andb Node.val Node.add_val]. rewrite Hval. unfold add.
    now rewrite wrap_add_l.
  - destruct (Hsame n eq_refl eq_refl) as [-> ->].
    assert (~ (lo D i <= li < up D i)) as Hout.
    { intros Hcov.
      assert (In i (path (li + 2 ^ D))) as Hin
        by (apply (path_covers D li i HD0 Hli); split; assumption).
      apply on_path_In in Hin. congruence. }
    destruct (Z.leb_spec (lo D i) li), (Z.ltb_spec li (up D i));
      cbn [andb]; try lia; rewrite Hval; f_equal; lia.
Qed.

End InsertFacts.

(** ** The constructor, and the states a program can reach *)

Module ConstructFacts.
Import Int IntFacts Shape ShapeFacts NodeFacts TotalFacts PathFacts.
Import RangeTree TreeFacts InsertFacts.

(** The inner loop of the constructor, for one level [d]. *)
Lemma fill_level d :
  forall n i s,
    0 <= i -> i + Z.of_nat n <= Z.of_nat (length (nodes s)) ->
    exists s' lg,
      for_count n i (fun ni => store ni (Node.make d ni)) s = Some (tt, s', lg) /\
      length (nodes s') = length (nodes s) /\
      forall k, 0 <= k ->
        nodes s' !! Z.to_nat k =
        if (i <=? k) && (k <? i + Z.of_nat n) then Some (Node.make d k)
        else nodes s !! Z.to_nat k.
Proof.
  induction n as [|n IH]; intros i s Hi Hlen.
  - exists s, []. split; [reflexivity|]. split; [reflexivity|].
    intros k Hk.
    destruct (Z.leb_spec i k), (Z.ltb_spec k (i + Z.of_nat 0)); cbn; trivial; lia.
  - cbn [for_count]. unfold bind.
    rewrite (store_Some i (Node.make d i) s ltac:(lia)). cbv beta iota.
    set (s1 := {| nodes := <[Z.to_nat i := Node.make d i]> (nodes s) |}).
    assert (length (nodes s1) = length (nodes s)) as Hlen1
      by (unfold s1; cbn; apply length_insert).
    destruct (IH (i + 1) s1) as (s' & lg & Hrun & Hlen' & Hlk); [lia | lia |].
    rewrite Hrun. exists s', ([Wr i] ++ lg).
    split; [reflexivity|]. split; [congruence|].
    intros k Hk. rewrite (Hlk k Hk). unfold s1. cbn [nodes].
    destruct (Z.eq_dec k i) as [->|Hne].
    + rewrite list_lookup_insert_eq by lia.
      destruct (Z.leb_spec (i + 1) i), (Z.ltb_spec i (i + 1 + Z.of_nat n)),
               (Z.leb_spec i i), (Z.ltb_spec i (i + Z.of_nat (S n)));
        cbn; trivial; lia.
    + rewrite list_lookup_insert_ne by lia.
      destruct (Z.leb_spec (i + 1) k), (Z.ltb_spec k (i + 1 + Z.of_nat n)),
               (Z.leb_spec i k), (Z.ltb_spec k (i + Z.of_nat (S n)));
        cbn; trivial; lia.
Qed.

(** The outer loop, from level [d] on, for [n] levels. *)
Lemma fill_levels D :
  depth_ok D ->
  forall n d s,
    0 <= d -> d + Z.of_nat n <= D + 1 ->
    Z.of_nat (length (nodes s)) = 2 ^ (D + 1) ->
    exists s' lg,
      for_count n d (fun d =>
        for_range (shl 1 d) (shl 2 d) (fun ni => store ni (Node.make d ni))) s
      = Some (tt, s', lg) /\
      length (nodes s') = length (nodes s) /\
      forall k, 0 <= k ->
        nodes s' !! Z.to_nat k =
        if (2 ^ d <=? k) && (k <? 2 ^ (d + Z.of_nat n))
        then Some (Node.make (Z.log2 k) k)
        else nodes s !! Z.to_nat k.
Proof.
  intros HD. unfold depth_ok in HD.
  induction n as [|n IH]; intros d s Hd Hdn Hlen.
  - exists s, []. split; [reflexivity|]. split; [reflexivity|].
    intros k Hk. rewrite Z.add_0_r.
    destruct (Z.leb_spec (2 ^ d) k), (Z.ltb_spec k (2 ^ d)); cbn; trivial; lia.
  - cbn [for_count]. unfold bind. unfold for_range at 1.
    rewrite shl_1, shl_2 by lia.
    assert (2 ^ (d + 1) = 2 * 2 ^ d) as Hd1.
    { rewrite Z.pow_add_r by lia. change (2 ^ 1) with 2. lia. }
    assert (0 < 2 ^ d) as Hpd by (apply Z.pow_pos_nonneg; lia).
    assert (2 ^ (d + 1) <= 2 ^ (D + 1)) as Hle by (apply Z.pow_le_mono_r; lia).
    destruct (fill_level d (Z.to_nat (2 ^ (d + 1) - 2 ^ d)) (2 ^ d) s)
      as (s1 & lg1 & Hrun1 & Hlen1 & Hlk1); [lia | lia |].
    rewrite Hrun1. cbv beta iota.
    destruct (IH (d + 1) s1) as (s' & lg & Hrun & Hlen' & Hlk);
      [lia | lia | congruence |].
    rewrite Hrun. exists s', (lg1 ++ lg).
    split; [reflexivity|]. split; [congruence|].
    intros k Hk. rewrite (Hlk k Hk), (Hlk1 k Hk).
    replace (2 ^ d + Z.of_nat (Z.to_nat (2 ^ (d + 1) - 2 ^ d)))
      with (2 ^ (d + 1)) by lia.
    replace (d + 1 + Z.of_nat n) with (d + Z.of_nat (S n)) by lia.
    assert (2 ^ (d + 1) <= 2 ^ (d + Z.of_nat (S n))) by (apply Z.pow_le_mono_r; lia).
    destruct (Z.leb_spec (2 ^ (d + 1)) k), (Z.ltb_spec k (2 ^ (d + Z.of_nat (S n)))),
             (Z.leb_spec (2 ^ d) k), (Z.ltb_spec k (2 ^ (d + 1)));
      cbn [andb]; trivial; try lia.
    now rewrite (log2_leaf d k Hd ltac:(lia)).
Qed.

Lemma uninitialised_length D junk :
  depth_ok D -> Z.of_nat (length (nodes (uninitialised D junk))) = 2 ^ (D + 1).
Proof.
  intros HD. destruct (constants D HD) as (_ & HT & HN & HN2).
  unfold uninitialised. cbn [nodes].
  rewrite length_map, length_seq, HT. lia.
Qed.

(** [RangeTree()]: every slot but 0 is [Node(d, ni)], slot 0 keeps its
    junk. *)
Lemma construct_spec D junk :
  depth_ok D ->
  exists s lg,
    construct D (uninitialised D junk) = Some (tt, s, lg) /\
    Z.of_nat (length (nodes s)) = 2 ^ (D + 1) /\
    nodes s !! Z.to_nat 0 = Some (junk 0%nat) /\
    forall k, 1 <= k < 2 ^ (D + 1) ->
      nodes s !! Z.to_nat k = Some (Node.make (Z.log2 k) k).
Proof.
  intros HD. pose proof (uninitialised_length D junk HD) as Hlen.
  destruct (constants D HD) as (_ & HT & HN & HN2).
  assert (0 <= D <= 29) as HD' by exact HD.
  unfold construct, for_range.
  destruct (fill_levels D HD (Z.to_nat (D + 1 - 0)) 0 (uninitialised D junk))
    as (s & lg & Hrun & Hlen' & Hlk); [lia | lia | assumption |].
  exists s, lg. split; [exact Hrun|]. split; [lia|].
  replace (0 + Z.of_nat (Z.to_nat (D + 1 - 0))) with (D + 1) in Hlk by lia.
  change (2 ^ 0) with 1 in Hlk. split.
  - rewrite (Hlk 0 ltac:(lia)). cbn [Z.leb andb].
    change (1 <=? 0) with false. cbn [andb].
    unfold uninitialised. cbn [nodes].
    rewrite list_lookup_fmap, lookup_seq_lt by lia. reflexivity.
  - intros k Hk. rewrite (Hlk k ltac:(lia)).
    destruct (Z.leb_spec 1 k), (Z.ltb_spec k (2 ^ (D + 1))); cbn [andb]; trivial; lia.
Qed.

Lemma new_spec D junk :
  depth_ok D ->
  exists s,
    new D junk = Some s /\ shaped D s /\ summarises D [] s /\
    nodes s !! Z.to_nat 0 = Some (junk 0%nat) /\
    forall k, 1 <= k < 2 ^ (D + 1) ->
      nodes s !! Z.to_nat k = Some (Node.make (Z.log2 k) k).
Proof.
  intros HD.
  destruct (construct_spec D junk HD) as (s & lg & Hrun & Hlen & H0 & Hk).
  exists s. unfold new. rewrite Hrun. split; [reflexivity|].
  split; [|split; [|split; assumption]].
  - split; [assumption|]. intros i Hi. rewrite (Hk i Hi).
    eexists. split; [reflexivity|]. now split.
  - intros i n Hi Hn. rewrite (Hk i Hi) in Hn. injection Hn as <-. reflexivity.
Qed.

Lemma insert_all_spec D :
  depth_ok D ->
  forall ops done s,
    shaped D s -> summarises D done s -> valid_ops D ops = true ->
    exists s' lg,
      insert_all D ops s = Some (tt, s', lg) /\
      shaped D s' /\ summarises D (done ++ ops) s'.
Proof.
  intros HD. destruct (constants D HD) as (HM & _).
  induction ops as [|[li v] ops IH]; intros done s Hs Hv Hok.
  - exists s, []. rewrite app_nil_r.
    split; [reflexivity | split; assumption].
  - cbn in Hok. apply andb_true_iff in Hok as [Hli Hok].
    apply andb_true_iff in Hli as [Hli1 Hli2].
    apply Z.leb_le in Hli1. apply Z.ltb_lt in Hli2. rewrite HM in Hli2.
    destruct (insert_spec D s li v HD Hs ltac:(lia))
      as (s1 & Hrun1 & _ & _ & Hs1 & Hv1).
    destruct (IH (done ++ [(li, v)]) s1 Hs1 (Hv1 done Hv) Hok)
      as (s' & lg & Hrun & Hs' & Hv').
    cbn [insert_all]. unfold bind. rewrite Hrun1. cbv beta iota. rewrite Hrun.
    eexists _, _. split; [reflexivity|]. split; [assumption|].
    now rewrite <- app_assoc in Hv'.
Qed.

(** Construction followed by any valid sequence of inserts succeeds, and
    the tree it leaves is well-formed and summarises the sequence. *)
Lemma after_spec D junk ops :
  depth_ok D -> valid_ops D ops = true ->
  exists s, after D junk ops = Some s /\ shaped D s /\ summarises D ops s.
Proof.
  intros HD Hok.
  destruct (new_spec D junk HD) as (s0 & Hnew & Hs0 & Hv0 & _).
  unfold new in Hnew.
  destruct (construct D (uninitialised D junk)) as [[[[] s0'] lg0]|] eqn:Hc;
    [|discriminate].
  injection Hnew as ->.
  destruct (insert_all_spec D HD ops [] s0 Hs0 Hv0 Hok) as (s & lg & Hrun & Hs & Hv).
  exists s. unfold after, bind. rewrite Hc. cbv beta iota. rewrite Hrun.
  split; [reflexivity | split; assumption].
Qed.

End ConstructFacts.

(** ** [sum] only reads *)

Module ReadOnlyFacts.
Import RangeTree.

Lemma load_inv i s n s' lg :
  load i s = Some (n, s', lg) -> s' = s /\ lg = [Rd i].
Proof.
  unfold load. destruct (0 <=? i); [|discriminate].
  destruct (nodes s !! Z.to_nat i); [|discriminate].
  intros H. injection H as _ <- <-. now split.
Qed.

Lemma sum_body_reads D ub ni acc s c s' lg :
  sum_body D ub ni acc s = Some (c, s', lg) ->
  s' = s /\ forallb is_read lg = true.
Proof.
  unfold sum_body, bind.
  destruct (load (Int.shr ni 1) s) as [[[p s1] l1]|] eqn:E1; [|discriminate].
  apply load_inv in E1 as [-> ->].
  destruct ((Node.upper_li D p <=? ub) && (ni >? 1)).
  - intros H. injection H as _ <- <-. now split.
  - destruct (load ni s) as [[[self s2] l2]|] eqn:E2; [|discriminate].
    apply load_inv in E2 as [-> ->].
    destruct (Node.leveli self >? 0); intros H; injection H as _ <- <-; now split.
Qed.

Lemma sum_loop_reads D :
  forall fuel ub ni acc s r s' lg,
    sum_loop D fuel ub ni acc s = Some (r, s', lg) ->
    s' = s /\ forallb is_read lg = true.
Proof.
  induction fuel as [|fuel IH]; intros ub ni acc s r s' lg; [discriminate|].
  cbn [sum_loop]. destruct (ni >? 0).
  - unfold bind.
    destruct (sum_body D ub ni acc s) as [[[c s1] l1]|] eqn:E1; [|discriminate].
    apply sum_body_reads in E1 as [-> Hl1].
    destruct c as [ni' acc'|acc'].
    + destruct (sum_loop D fuel ub ni' acc' s) as [[[r2 s2] l2]|] eqn:E2;
        [|discriminate].
      apply IH in E2 as [-> Hl2].
      intros H. injection H as _ <- <-. split; [reflexivity|].
      rewrite forallb_app, Hl1, Hl2. reflexivity.
    + intros H. injection H as _ <- <-. split; [reflexivity|].
      rewrite forallb_app, Hl1. reflexivity.
  - intros H. injection H as _ <- <-. now split.
Qed.

Lemma sum_reads D ub s r s' lg :
  sum D ub s = Some (r, s', lg) -> s' = s /\ forallb is_read lg = true.
Proof. apply sum_loop_reads. Qed.

Lemma sum_twice_same D ub s r lg :
  sum D ub s = Some (r, s, lg) ->
  sum_twice D ub s = Some ((r, r), s, lg ++ lg).
Proof.
  intros H. unfold sum_twice, bind. rewrite H. cbv beta iota.
  rewrite H. cbv beta iota. unfold ret. now rewrite app_nil_r.
Qed.

End ReadOnlyFacts.

(** ** The slow constructor of [Node] *)

Module SlowFacts.
Import Int IntFacts ShapeFacts.

Lemma slow_loop_spec :
  forall fuel k lvl,
    (Z.to_nat k < fuel)%nat -> 1 <= k -> 0 <= lvl ->
    lvl + Z.log2 k <= max_int ->
    Node.slow_loop fuel lvl k = Some (lvl + Z.log2 k).
Proof.
  induction fuel as [|fuel IH]; intros k lvl Hfuel Hk Hlvl Hmax; [lia|].
  cbn [Node.slow_loop].
  destruct (Z.gtb_spec k 1) as [Hgt|Hle].
  - pose proof (log2_half k ltac:(lia)) as Hh.
    pose proof (Z.log2_nonneg (k / 2)).
    pose proof (Z.div_mod k 2 ltac:(lia)).
    pose proof (Z.mod_pos_bound k 2 ltac:(lia)).
    rewrite shr_1, add_small
      by (unfold in_range; unfold max_int, min_int in *; lia).
    rewrite IH by lia. f_equal. lia.
  - replace k with 1 by lia. cbn. f_equal. lia.
Qed.

Lemma make_slow_spec D ni :
  depth_ok D -> 1 <= ni < 2 ^ (D + 1) ->
  Node.make_slow ni = Some (Node.make (Z.log2 ni) ni).
Proof.
  intros HD Hni. unfold depth_ok in HD.
  destruct (level_facts D ni ltac:(lia) Hni) as (Hl & _).
  unfold Node.make_slow.
  rewrite slow_loop_spec; [reflexivity | lia | lia | lia |].
  unfold max_int. cbn. lia.
Qed.

End SlowFacts.

(** ** The loop fuel is never the limit *)

(** Every pass through either [while (ni > 0)] loop makes [ni] smaller, so
    the fuel that [insert] and [sum] start with cannot run out: with any
    larger fuel the outcome is the same.  A run that fails in the model
    fails on an index outside the array. *)
Module FuelFacts.
Import Int IntFacts RangeTree ReadOnlyFacts.

Lemma sub_1_lt ni : 0 < ni -> Int.sub ni 1 < ni.
Proof.
  intros Hni. unfold sub, wrap.
  destruct (Z_lt_le_dec (ni - 1 + 2 ^ 31) (2 ^ 32)) as [Hlt|Hge].
  - rewrite Z.mod_small by lia. lia.
  - pose proof (Z.mod_pos_bound (ni - 1 + 2 ^ 31) (2 ^ 32) ltac:(lia)). lia.
Qed.

Lemma shr_1_lt ni : 0 < ni -> Int.shr ni 1 < ni.
Proof.
  intros Hni. rewrite shr_1.
  pose proof (Z.div_mod ni 2 ltac:(lia)).
  pose proof (Z.mod_pos_bound ni 2 ltac:(lia)). lia.
Qed.

Lemma sum_body_descends D ub ni acc s ni' acc' s' lg :
  0 < ni -> sum_body D ub ni acc s = Some (Next ni' acc', s', lg) -> ni' < ni.
Proof.
  intros Hni. unfold sum_body, bind.
  destruct (load (Int.shr ni 1) s) as [[[p s1] l1]|]; [|discriminate].
  destruct ((Node.upper_li D p <=? ub) && (ni >? 1)).
  - intros H. injection H as <- _ _ _. now apply shr_1_lt.
  - destruct (load ni s1) as [[[self s2] l2]|]; [|discriminate].
    destruct (Node.leveli self >? 0); [|discriminate].
    intros H. injection H as <- _ _ _. now apply sub_1_lt.
Qed.

Lemma sum_loop_fuel D ub :
  forall fuel1 fuel2 ni acc s,
    (Z.to_nat ni < fuel1)%nat -> (Z.to_nat ni < fuel2)%nat ->
    sum_loop D fuel1 ub ni acc s = sum_loop D fuel2 ub ni acc s.
Proof.
  induction fuel1 as [|fuel1 IH]; intros [|fuel2] ni acc s H1 H2; try lia.
  cbn [sum_loop]. destruct (Z.gtb_spec ni 0) as [Hni|]; [|reflexivity].
  unfold bind.
  destruct (sum_body D ub ni acc s) as [[[c s1] l1]|] eqn:Hbody; [|reflexivity].
  destruct c as [ni' acc'|acc']; [|reflexivity].
  pose proof (sum_body_descends D ub ni acc s ni' acc' s1 l1 Hni Hbody).
  rewrite (IH fuel2 ni' acc' s1) by lia. reflexivity.
Qed.

Lemma insert_loop_fuel v :
  forall fuel1 fuel2 ni s,
    (Z.to_nat ni < fuel1)%nat -> (Z.to_nat ni < fuel2)%nat ->
    insert_loop fuel1 v ni s = insert_loop fuel2 v ni s.
Proof.
  induction fuel1 as [|fuel1 IH]; intros [|fuel2] ni s H1 H2; try lia.
  cbn [insert_loop]. destruct (Z.gtb_spec ni 0) as [Hni|]; [|reflexivity].
  unfold bind.
  destruct (load ni s) as [[[node s1] l1]|]; [|reflexivity].
  destruct (store ni (Node.add_val node v) s1) as [[[[] s2] l2]|]; [|reflexivity].
  pose proof (shr_1_lt ni Hni).
  rewrite (IH fuel2 (Int.shr ni 1) s2) by lia. reflexivity.
Qed.

End FuelFacts.

(** ** Facts shared by the main theorems *)

Module ProgramFacts.
Import Int IntFacts Shape ShapeFacts NodeFacts TotalFacts PathFacts.
Import RangeTree TreeFacts InsertFacts ConstructFacts.

Lemma prefix_total_range D ops k :
  valid_ops D ops = true -> range_total 0 k ops = prefix_total k ops.
Proof.
  induction ops as [|op ops IH]; [reflexivity|].
  intros H. cbn in H. apply andb_true_iff in H as [H1 H2].
  apply andb_true_iff in H1 as [H1 _].
  rewrite range_total_cons, (IH H2), H1. unfold prefix_total. cbn.
  destruct (fst op <? k); lia.
Qed.

Lemma query_spec D junk ops k :
  depth_ok D -> valid_ops D ops = true -> 1 <= k <= 2 ^ D ->
  query D junk ops k = Some (wrap (range_total 0 k ops)).
Proof.
  intros HD Hok Hk.
  destruct (after_spec D junk ops HD Hok) as (s & Hafter & Hs & Hv).
  destruct (sum_prefix D ops s k HD Hs Hv Hk) as (lg & Hsum & _).
  unfold query. now rewrite Hafter, Hsum.
Qed.

Lemma insert_all_snoc D li v s' lg :
  forall ops s0 s1 l1,
    insert_all D ops s0 = Some (tt, s1, l1) ->
    insert D li v s1 = Some (tt, s', lg) ->
    insert_all D (ops ++ [(li, v)]) s0 = Some (tt, s', l1 ++ lg).
Proof.
  induction ops as [|[li0 v0] ops IH]; intros s0 s1 l1 Hrun Hins.
  - cbn in Hrun. injection Hrun as <- <-.
    cbn [app insert_all]. unfold bind. rewrite Hins. cbn.
    now rewrite app_nil_r.
  - cbn [insert_all] in Hrun. unfold bind in Hrun.
    destruct (insert D li0 v0 s0) as [[[[] sa] la]|] eqn:Ea; [|discriminate].
    destruct (insert_all D ops sa) as [[[[] sb] lb]|] eqn:Eb; [|discriminate].
    injection Hrun as <- <-.
    rewrite <- app_comm_cons. cbn [insert_all]. unfold bind.
    rewrite Ea, (IH sa sb lb Eb Hins). now rewrite app_assoc.
Qed.

Lemma after_snoc D junk ops li v s s' lg :
  after D junk ops = Some s -> insert D li v s = Some (tt, s', lg) ->
  after D junk (ops ++ [(li, v)]) = Some s'.
Proof.
  unfold after, bind. intros Hafter Hins.
  destruct (construct D (uninitialised D junk)) as [[[[] s0] l0]|]; [|discriminate].
  destruct (insert_all D ops s0) as [[[[] s1] l1]|] eqn:E1; [|discriminate].
  injection Hafter as ->.
  now rewrite (insert_all_snoc D li v s' lg ops s0 s l1 E1 Hins).
Qed.

Lemma path_last n : 1 <= n -> last (path n) = Some 1.
Proof.
  induction (Z.lt_wf 0 n) as [n _ IH]. intros Hn.
  destruct (Z.eq_dec n 1) as [->|Hne]; [reflexivity|].
  pose proof (Z.div_mod n 2 ltac:(lia)).
  pose proof (Z.mod_pos_bound n 2 ltac:(lia)).
  rewrite path_step, last_cons, IH by lia. reflexivity.
Qed.

Lemma path_head n : head (path n) = Some n.
Proof. reflexivity. Qed.

(** Slots that [insert] reads or writes. *)
Lemma insert_accesses D li :
  depth_ok D -> 0 <= li < 2 ^ D ->
  Forall (fun a => 1 <= slot_of a < 2 ^ (D + 1))
         (flat_map touch (path (li + 2 ^ D))).
Proof.
  intros HD Hli. destruct (constants D HD) as (_ & _ & HN & HN2).
  apply Forall_forall. intros a Ha.
  apply list_elem_of_In, in_flat_map in Ha as (i & Hi & Ha).
  apply path_range in Hi; [|lia].
  destruct Ha as [<-|[<-|[]]]; cbn; lia.
Qed.

End ProgramFacts.

(** * The properties of the specification *)

Import IntFacts ShapeFacts NodeFacts TotalFacts PathFacts TreeFacts.
Import InsertFacts ConstructFacts ReadOnlyFacts SlowFacts ProgramFacts.

(** Sanity runs of the model on the tree of the header comment ([D = 3]),
    over storage that held arbitrary data before construction. *)
Example run_scenario_queries :
  map (RangeTree.query 3 odd_junk scenario) [1; 2; 3; 4; 5; 6; 7; 8]
  = map Some [0; 0; 0; 7; 7; 7; 17; 17].
Proof. vm_compute. reflexivity. Qed.

Example run_full_sum_log :
  (match RangeTree.after 3 odd_junk scenario with
   | Some s => option_map snd (RangeTree.sum 3 8 s)
   | None => None
   end)
  = Some [RangeTree.Rd 7; RangeTree.Rd 3; RangeTree.Rd 1;
          RangeTree.Rd 0; RangeTree.Rd 1].
Proof. vm_compute. reflexivity. Qed.

(** Overflowing accumulators wrap in the model. *)
Example run_overflow :
  RangeTree.query 3 odd_junk [(0, 2147483647); (0, 1)] 1 = Some (-2147483648).
Proof. vm_compute. reflexivity. Qed.

(** The fifteen nodes of the tree of depth 3, built by either constructor. *)
Example run_constructors :
  option_map (fun s => tail (RangeTree.nodes s)) (RangeTree.new 3 odd_junk)
  = Some (omap Node.make_slow
            [1; 2; 3; 4; 5; 6; 7; 8; 9; 10; 11; 12; 13; 14; 15]).
Proof. vm_compute. reflexivity. Qed.

(** [sum(0)] on the scenario, with the slots it reads. *)
Example run_sum_0 :
  (match RangeTree.after 3 odd_junk scenario with
   | Some s => option_map (fun r => (fst (fst r), snd r)) (RangeTree.sum 3 0 s)
   | None => None
   end)
  = Some (17, [RangeTree.Rd 3; RangeTree.Rd 7; RangeTree.Rd 3; RangeTree.Rd 6;
               RangeTree.Rd 2; RangeTree.Rd 5; RangeTree.Rd 2; RangeTree.Rd 4]).
Proof. vm_compute. reflexivity. Qed.

(** C1 (additivity).  For every sequence of [insert(li, v)] calls with each
    [li] in [[0, MAX_LEAVES)] and every [k] in [[1, MAX_LEAVES]], [sum(k)]
    returns the sum of [v] over all inserted pairs with [li < k].  The sum
    is taken in [int]; it is the sum in [Z] whenever that one is an [int]. *)
Theorem sum_returns_prefix_total D junk ops k :
  depth_ok D -> valid_ops D ops = true -> 1 <= k <= RangeTree.MAX_LEAVES D ->
  RangeTree.query D junk ops k = Some (Int.wrap (prefix_total k ops)) /\
  (Int.in_range (prefix_total k ops) ->
   RangeTree.query D junk ops k = Some (prefix_total k ops)).
Proof.
  intros HD Hok Hk. destruct (constants D HD) as (HM & _).
  rewrite HM in Hk.
  rewrite (query_spec D junk ops k HD Hok Hk), (prefix_total_range D ops k Hok).
  split; [reflexivity|]. intros Hfit. now rewrite wrap_small.
Qed.

Lemma sum_returns_prefix_total_witness :
  RangeTree.query Contest.D zero_junk scenario 4 = Some 7.
Proof.
  refine (proj1 (sum_returns_prefix_total Contest.D zero_junk scenario 4 _ _ _)).
  - unfold depth_ok, Contest.D. lia.
  - reflexivity.
  - change (RangeTree.MAX_LEAVES Contest.D) with 65536. lia.
Defined.

(** C2 (node values).  After every [insert] call, on a tree reached by any
    sequence of valid inserts, every node [ni] in [1 .. TREE_SIZE - 1] has
    [val] equal to the ([int]) sum of all deltas inserted so far at leaves
    of its coverage range [[lower_li, upper_li)]. *)
Theorem node_values_after_every_insert D junk ops li v :
  depth_ok D -> valid_ops D ops = true -> 0 <= li < RangeTree.MAX_LEAVES D ->
  exists s s' lg,
    RangeTree.after D junk ops = Some s /\
    RangeTree.insert D li v s = Some (tt, s', lg) /\
    RangeTree.after D junk (ops ++ [(li, v)]) = Some s' /\
    forall ni, 1 <= ni < RangeTree.TREE_SIZE D ->
      exists n, RangeTree.nodes s' !! Z.to_nat ni = Some n /\
        Node.val n =
        Int.wrap (range_total (Node.lower_li D n) (Node.upper_li D n)
                              (ops ++ [(li, v)])).
Proof.
  intros HD Hok Hli. destruct (constants D HD) as (HM & HT & _).
  rewrite HM in Hli. rewrite HT.
  destruct (after_spec D junk ops HD Hok) as (s & Hafter & Hs & Hv).
  destruct (insert_spec D s li v HD Hs Hli) as (s' & Hins & _ & _ & Hs' & Hv').
  exists s, s', (flat_map touch (path (li + 2 ^ D))).
  split; [exact Hafter|]. split; [exact Hins|].
  split; [exact (after_snoc D junk ops li v s s' _ Hafter Hins)|].
  intros ni Hni. destruct Hs' as [_ Hmeta].
  destruct (Hmeta ni Hni) as (n & Hn & _). exists n. split; [exact Hn|].
  exact (Hv' ops Hv ni n Hni Hn).
Qed.

Lemma node_values_after_every_insert_witness :
  exists s s' lg,
    RangeTree.after Contest.D zero_junk scenario = Some s /\
    RangeTree.insert Contest.D 9 (-4) s = Some (tt, s', lg) /\
    RangeTree.after Contest.D zero_junk (scenario ++ [(9, -4)]) = Some s' /\
    forall ni, 1 <= ni < RangeTree.TREE_SIZE Contest.D ->
      exists n, RangeTree.nodes s' !! Z.to_nat ni = Some n /\
        Node.val n =
        Int.wrap (range_total (Node.lower_li Contest.D n) (Node.upper_li Contest.D n)
                              (scenario ++ [(9, -4)])).
Proof.
  apply (node_values_after_every_insert Contest.D zero_junk scenario 9 (-4)).
  - unfold depth_ok, Contest.D. lia.
  - reflexivity.
  - change (RangeTree.MAX_LEAVES Contest.D) with 65536. lia.
Defined.

(** C3 (slot 0).  The claim is that neither [insert] nor [sum], for a bound
    in [[1, MAX_LEAVES]], reads or writes array slot 0.  The code breaks it
    for the bound [MAX_LEAVES]: with the constants of the source, on a
    freshly constructed tree, [sum(MAX_LEAVES)] climbs to the root and
    there evaluates [nodes[0].upper_li()] before it tests [ni > 1]. *)
Theorem full_sum_reads_slot_0 :
  forall junk, exists s r lg,
    RangeTree.new Contest.D junk = Some s /\
    RangeTree.sum Contest.D Contest.MAX_LEAVES s = Some (r, s, lg) /\
    In (RangeTree.Rd 0) lg.
Proof.
  intros junk.
  assert (depth_ok Contest.D) as HD by (unfold depth_ok, Contest.D; lia).
  destruct (new_spec Contest.D junk HD) as (s & Hnew & Hs & Hv & _).
  destruct (sum_prefix Contest.D [] s Contest.MAX_LEAVES HD Hs Hv)
    as (lg & Hsum & _ & _ & Hzero & _).
  { change Contest.MAX_LEAVES with 65536. change (2 ^ Contest.D) with 65536. lia. }
  eexists s, _, lg. split; [exact Hnew|]. split; [exact Hsum|].
  apply Hzero. reflexivity.
Qed.

(** The rest of C3 holds: [insert] touches slots of [[1, TREE_SIZE)] only,
    and so does [sum] for every bound below [MAX_LEAVES]. *)

(** X22 ([insert] stays off slot 0).  For every [li] of
    [[0, MAX_LEAVES)], on a tree reached by valid inserts, every slot that
    [insert(li, v)] reads or writes is in [[1, TREE_SIZE)]. *)
Lemma insert_never_touches_slot_0 D junk ops li v :
  depth_ok D -> valid_ops D ops = true -> 0 <= li < RangeTree.MAX_LEAVES D ->
  exists s s' lg,
    RangeTree.after D junk ops = Some s /\
    RangeTree.insert D li v s = Some (tt, s', lg) /\
    Forall (fun a => 1 <= RangeTree.slot_of a < RangeTree.TREE_SIZE D) lg.
Proof.
  intros HD Hok Hli. destruct (constants D HD) as (HM & HT & _).
  rewrite HM in Hli. rewrite HT.
  destruct (after_spec D junk ops HD Hok) as (s & Hafter & Hs & _).
  destruct (insert_spec D s li v HD Hs Hli) as (s' & Hins & _).
  eexists s, s', _. split; [exact Hafter|]. split; [exact Hins|].
  now apply insert_accesses.
Qed.

(** X23 ([sum] below [MAX_LEAVES] stays off slot 0).  For every bound of
    [[1, MAX_LEAVES)], on a tree reached by valid inserts, every slot that
    [sum] reads is in [[1, TREE_SIZE)]. *)
Lemma partial_sum_never_touches_slot_0 D junk ops ub :
  depth_ok D -> valid_ops D ops = true -> 1 <= ub < RangeTree.MAX_LEAVES D ->
  exists s r lg,
    RangeTree.after D junk ops = Some s /\
    RangeTree.sum D ub s = Some (r, s, lg) /\
    Forall (fun a => 1 <= RangeTree.slot_of a < RangeTree.TREE_SIZE D) lg.
Proof.
  intros HD Hok Hub. destruct (constants D HD) as (HM & HT & _).
  rewrite HM in Hub. rewrite HT.
  destruct (after_spec D junk ops HD Hok) as (s & Hafter & Hs & Hv).
  destruct (sum_prefix D ops s ub HD Hs Hv ltac:(lia))
    as (lg & Hsum & Hrd & Hpos & _).
  eexists s, _, lg. split; [exact Hafter|]. split; [exact Hsum|].
  specialize (Hpos ltac:(lia)).
  rewrite Forall_forall in *. intros a Ha.
  specialize (Hrd a Ha). specialize (Hpos a Ha). lia.
Qed.

(** C4 as stated, refuted.  With the constants of the source the start
    slot of [sum(0)] is [MAX_LEAVES - 1], but the node in that slot is not a
    leaf: its level is [D - 1]. *)
Lemma sum_0_start_is_not_the_last_leaf :
  ~ (exists s n,
       RangeTree.new Contest.D zero_junk = Some s /\
       RangeTree.sum_start Contest.D 0 = Contest.MAX_LEAVES - 1 /\
       RangeTree.nodes s !! Z.to_nat (RangeTree.sum_start Contest.D 0) = Some n /\
       Node.level n = Contest.D /\
       Node.lower_li Contest.D n = Contest.MAX_LEAVES - 1 /\
       Node.upper_li Contest.D n = Contest.MAX_LEAVES).
Proof.
  intros (s & n & Hnew & _ & Hn & Hlevel & _).
  assert (depth_ok Contest.D) as HD by (unfold depth_ok, Contest.D; lia).
  destruct (new_spec Contest.D zero_junk HD) as (s0 & Hnew0 & _ & _ & _ & Hk).
  rewrite Hnew in Hnew0. injection Hnew0 as <-.
  change (RangeTree.sum_start Contest.D 0) with 65535 in Hn.
  rewrite (Hk 65535) in Hn
    by (change (2 ^ (Contest.D + 1)) with 131072; lia).
  injection Hn as <-. cbn in Hlevel. discriminate.
Qed.

(** C4, amended.  When [sum] is called with the bound 0 on a tree of depth
    at least 1, the start slot it computes is [MAX_LEAVES - 1], and that
    slot is the right-most node of level [D - 1], whose coverage range is
    the last two leaves, [[MAX_LEAVES - 2, MAX_LEAVES)]. *)
Theorem sum_0_starts_on_the_level_above_the_leaves D junk ops :
  depth_ok D -> 1 <= D -> valid_ops D ops = true ->
  exists s n,
    RangeTree.after D junk ops = Some s /\
    RangeTree.sum_start D 0 = RangeTree.MAX_LEAVES D - 1 /\
    RangeTree.nodes s !! Z.to_nat (RangeTree.sum_start D 0) = Some n /\
    Node.level n = D - 1 /\
    Node.leveli n = 2 ^ Node.level n - 1 /\
    Node.lower_li D n = RangeTree.MAX_LEAVES D - 2 /\
    Node.upper_li D n = RangeTree.MAX_LEAVES D.
Proof.
  intros HD HD1 Hok. destruct (constants D HD) as (HM & _ & HN & HN2).
  destruct (after_spec D junk ops HD Hok) as (s & Hafter & Hs & _).
  assert (2 ^ D = 2 * 2 ^ (D - 1)) as Hhalf.
  { rewrite <- Z.pow_succ_r by lia. f_equal. lia. }
  assert (1 <= 2 ^ (D - 1)) as Hpos1.
  { pose proof (Z.pow_pos_nonneg 2 (D - 1)). lia. }
  rewrite sum_start_eq, HM by (trivial; lia).
  replace (0 - 1 + 2 ^ D) with (2 ^ D - 1) by lia.
  destruct (shaped_slot D s (2 ^ D - 1) HD Hs ltac:(lia))
    as (n & Hn & Hl & _ & Hli & Hlo & Hup).
  assert (Z.log2 (2 ^ D - 1) = D - 1) as Hlog.
  { apply log2_leaf; [lia|]. replace (D - 1 + 1) with D by lia. lia. }
  exists s, n. split; [exact Hafter|]. split; [reflexivity|]. split; [exact Hn|].
  rewrite Hli, Hlo, Hup, Hl, Hlog.
  unfold Shape.lo, Shape.up, Shape.size, Shape.pos. rewrite Hlog.
  replace (D - (D - 1)) with 1 by lia. change (2 ^ 1) with 2.
  repeat split; lia.
Qed.

Lemma sum_0_starts_on_the_level_above_the_leaves_witness :
  exists s n,
    RangeTree.after Contest.D zero_junk scenario = Some s /\
    RangeTree.sum_start Contest.D 0 = RangeTree.MAX_LEAVES Contest.D - 1 /\
    RangeTree.nodes s !! Z.to_nat (RangeTree.sum_start Contest.D 0) = Some n /\
    Node.level n = Contest.D - 1 /\
    Node.leveli n = 2 ^ Node.level n - 1 /\
    Node.lower_li Contest.D n = RangeTree.MAX_LEAVES Contest.D - 2 /\
    Node.upper_li Contest.D n = RangeTree.MAX_LEAVES Contest.D.
Proof.
  apply (sum_0_starts_on_the_level_above_the_leaves Contest.D zero_junk scenario).
  - unfold depth_ok, Contest.D. lia.
  - unfold Contest.D. lia.
  - reflexivity.
Defined.

(** C5 (termination of [sum]).  On every tree reached by construction and
    valid inserts and for every bound in [[1, MAX_LEAVES]]: the walk starts
    on a slot of the tree; from any slot of the tree one pass through the
    loop body either moves to a slot of strictly smaller level, or stays on
    the level with a strictly smaller [leveli()], or breaks, and it breaks
    only on a node with [leveli() == 0]; and [sum] returns, its last array
    access being the read of such a left-most node. *)
Theorem sum_loop_terminates D junk ops ub :
  depth_ok D -> valid_ops D ops = true -> 1 <= ub <= RangeTree.MAX_LEAVES D ->
  exists s,
    RangeTree.after D junk ops = Some s /\
    1 <= RangeTree.sum_start D ub < RangeTree.TREE_SIZE D /\
    (forall ni acc, 1 <= ni < RangeTree.TREE_SIZE D ->
       exists n c lg,
         RangeTree.nodes s !! Z.to_nat ni = Some n /\
         RangeTree.sum_body D ub ni acc s = Some (c, s, lg) /\
         match c with
         | RangeTree.Next ni' _ =>
             1 <= ni' < RangeTree.TREE_SIZE D /\
             exists n', RangeTree.nodes s !! Z.to_nat ni' = Some n' /\
               (Node.level n' < Node.level n \/
                (Node.level n' = Node.level n /\
                 0 <= Node.leveli n' < Node.leveli n))
         | RangeTree.Break _ => Node.leveli n = 0
         end) /\
    (exists r lg nf n,
       RangeTree.sum D ub s = Some (r, s, lg) /\
       last lg = Some (RangeTree.Rd nf) /\
       RangeTree.nodes s !! Z.to_nat nf = Some n /\
       Node.leveli n = 0).
Proof.
  intros HD Hok Hub. destruct (constants D HD) as (HM & HT & HN & HN2).
  rewrite HM in Hub. rewrite HT.
  assert (0 <= D) as HD0 by (unfold depth_ok in HD; lia).
  destruct (after_spec D junk ops HD Hok) as (s & Hafter & Hs & Hv).
  exists s. split; [exact Hafter|].
  split; [rewrite sum_start_eq by (trivial; lia); lia|].
  split.
  - intros ni acc Hni.
    destruct (shaped_slot D s ni HD Hs Hni) as (n & Hn & Hl & _ & Hli & _).
    destruct (sum_body_cases D s ub ni acc HD Hs Hni) as (c & lg & Hbody & Hcase).
    exists n, c, lg. split; [exact Hn|]. split; [exact Hbody|].
    destruct Hcase as [(-> & _ & Hgt & _) | (n1 & Hn1 & _ & _ & Hstep)].
    + destruct (parent_range D ni HD0 ltac:(lia)) as (Hpr & _).
      destruct (shaped_slot D s (ni / 2) HD Hs Hpr) as (p & Hp & Hpl & _).
      split; [exact Hpr|]. exists p. split; [exact Hp|]. left.
      rewrite Hpl, Hl, log2_half by lia. lia.
    + destruct Hstep as [(-> & Hpos) | (-> & Hpos)].
      * destruct (left_range D ni HD0 Hni Hpos) as (Hl1 & Hll & Hlp & _).
        destruct (shaped_slot D s (ni - 1) HD Hs ltac:(lia))
          as (m & Hm & Hml & _ & Hmli & _).
        split; [lia|]. exists m. split; [exact Hm|]. right.
        rewrite Hml, Hl, Hmli, Hli, Hll, Hlp. lia.
      * now rewrite Hli.
  - destruct (sum_prefix D ops s ub HD Hs Hv Hub)
      as (lg & Hsum & _ & _ & _ & nf & Hnf & Hpos & Hlast).
    destruct (shaped_slot D s nf HD Hs Hnf) as (n & Hn & _ & _ & Hli & _).
    eexists _, lg, nf, n. split; [exact Hsum|]. split; [exact Hlast|].
    split; [exact Hn|]. now rewrite Hli.
Qed.

Lemma sum_loop_terminates_witness :
  exists s,
    RangeTree.after Contest.D zero_junk scenario = Some s /\
    1 <= RangeTree.sum_start Contest.D 7 < RangeTree.TREE_SIZE Contest.D /\
    (forall ni acc, 1 <= ni < RangeTree.TREE_SIZE Contest.D ->
       exists n c lg,
         RangeTree.nodes s !! Z.to_nat ni = Some n /\
         RangeTree.sum_body Contest.D 7 ni acc s = Some (c, s, lg) /\
         match c with
         | RangeTree.Next ni' _ =>
             1 <= ni' < RangeTree.TREE_SIZE Contest.D /\
             exists n', RangeTree.nodes s !! Z.to_nat ni' = Some n' /\
               (Node.level n' < Node.level n \/
                (Node.level n' = Node.level n /\
                 0 <= Node.leveli n' < Node.leveli n))
         | RangeTree.Break _ => Node.leveli n = 0
         end) /\
    (exists r lg nf n,
       RangeTree.sum Contest.D 7 s = Some (r, s, lg) /\
       last lg = Some (RangeTree.Rd nf) /\
       RangeTree.nodes s !! Z.to_nat nf = Some n /\
       Node.leveli n = 0).
Proof.
  apply (sum_loop_terminates Contest.D zero_junk scenario 7).
  - unfold depth_ok, Contest.D. lia.
  - reflexivity.
  - change (RangeTree.MAX_LEAVES Contest.D) with 65536. lia.
Defined.

(** C6 as stated, refuted on the tree of the scenario ([D = 3]): leaf 6
    lies below the bound 7, so [sum(7)] counts its 10. *)
Lemma scenario_sum_7_is_not_7 :
  ~ (RangeTree.query 3 zero_junk scenario 4 = Some 7 /\
     RangeTree.query 3 zero_junk scenario 3 = Some 0 /\
     RangeTree.query 3 zero_junk scenario 7 = Some 7 /\
     RangeTree.query 3 zero_junk scenario 8 = Some 17 /\
     exists s lg,
       RangeTree.after 3 zero_junk scenario = Some s /\
       RangeTree.range_sum 3 3 7 s = Some (7, s, lg)).
Proof.
  intros (_ & _ & H7 & _). vm_compute in H7. discriminate.
Qed.

(** C6, amended.  On a freshly constructed tree of depth at least 3, after
    [insert(3, 5)], [insert(3, 2)], [insert(6, 10)], the queries return
    [sum(4) == 7], [sum(3) == 0], [sum(7) == 17], [sum(8) == 17] and
    [sum(7) - sum(3) == 17]. *)
Theorem scenario_sums D junk :
  3 <= D <= 29 ->
  RangeTree.query D junk scenario 4 = Some 7 /\
  RangeTree.query D junk scenario 3 = Some 0 /\
  RangeTree.query D junk scenario 7 = Some 17 /\
  RangeTree.query D junk scenario 8 = Some 17 /\
  exists s lg,
    RangeTree.after D junk scenario = Some s /\
    RangeTree.range_sum D 3 7 s = Some (17, s, lg).
Proof.
  intros HD3. assert (depth_ok D) as HD by (unfold depth_ok; lia).
  destruct (constants D HD) as (HM & _ & HN & _).
  assert (8 <= 2 ^ D) as H8.
  { change 8 with (2 ^ 3). apply Z.pow_le_mono_r; lia. }
  assert (valid_ops D scenario = true) as Hok.
  { unfold valid_ops, scenario. cbn [forallb fst]. rewrite HM.
    destruct (Z.ltb_spec 3 (2 ^ D)), (Z.ltb_spec 6 (2 ^ D)); [reflexivity | lia ..]. }
  rewrite !query_spec by (trivial; lia).
  repeat (split; [reflexivity|]).
  destruct (after_spec D junk scenario HD Hok) as (s & Hafter & Hs & Hv).
  destruct (sum_prefix D scenario s 7 HD Hs Hv ltac:(lia)) as (lg7 & H7 & _).
  destruct (sum_prefix D scenario s 3 HD Hs Hv ltac:(lia)) as (lg3 & H3 & _).
  exists s, (lg7 ++ lg3 ++ []). split; [exact Hafter|].
  unfold RangeTree.range_sum, RangeTree.bind. rewrite H7. cbv beta iota.
  rewrite H3. reflexivity.
Qed.

Lemma scenario_sums_witness :
  RangeTree.query Contest.D zero_junk scenario 7 = Some 17.
Proof.
  refine (proj1 (proj2 (proj2 (scenario_sums Contest.D zero_junk _)))).
  unfold Contest.D. lia.
Defined.

(** C7 (frame of [insert]).  For every [li] in [[0, MAX_LEAVES)] and every
    delta, on a tree reached by valid inserts, [insert(li, delta)] reads
    and writes the slots of the path from the leaf slot [li + MAX_LEAVES]
    to the root slot 1 and no other; these are [D + 1] distinct slots, and
    they are the nodes whose coverage range contains [li].  The [val] of
    each of them grows by delta; every other slot, and the [level] and [ni]
    of every slot, stay as they were. *)
Theorem insert_changes_exactly_the_path D junk ops li delta :
  depth_ok D -> valid_ops D ops = true -> 0 <= li < RangeTree.MAX_LEAVES D ->
  exists s s',
    RangeTree.after D junk ops = Some s /\
    RangeTree.insert D li delta s
    = Some (tt, s', flat_map touch (path (li + RangeTree.MAX_LEAVES D))) /\
    Z.of_nat (length (path (li + RangeTree.MAX_LEAVES D))) = D + 1 /\
    NoDup (path (li + RangeTree.MAX_LEAVES D)) /\
    head (path (li + RangeTree.MAX_LEAVES D)) = Some (li + RangeTree.MAX_LEAVES D) /\
    last (path (li + RangeTree.MAX_LEAVES D)) = Some 1 /\
    (forall i, In i (path (li + RangeTree.MAX_LEAVES D)) ->
       1 <= i < RangeTree.TREE_SIZE D) /\
    (forall i, 1 <= i < RangeTree.TREE_SIZE D ->
       exists n, RangeTree.nodes s !! Z.to_nat i = Some n /\
         (In i (path (li + RangeTree.MAX_LEAVES D)) <->
          Node.lower_li D n <= li < Node.upper_li D n)) /\
    length (RangeTree.nodes s') = length (RangeTree.nodes s) /\
    (forall i n, 0 <= i -> RangeTree.nodes s !! Z.to_nat i = Some n ->
       exists n', RangeTree.nodes s' !! Z.to_nat i = Some n' /\
         Node.level n' = Node.level n /\ Node.ni n' = Node.ni n /\
         ((In i (path (li + RangeTree.MAX_LEAVES D)) /\
           Node.val n' = Int.add (Node.val n) delta)
          \/ (~ In i (path (li + RangeTree.MAX_LEAVES D)) /\ n' = n))).
Proof.
  intros HD Hok Hli. destruct (constants D HD) as (HM & HT & HN & HN2).
  rewrite HM in *. rewrite HT.
  assert (0 <= D) as HD0 by (unfold depth_ok in HD; lia).
  destruct (after_spec D junk ops HD Hok) as (s & Hafter & Hs & _).
  destruct (insert_spec D s li delta HD Hs Hli) as (s' & Hins & Hlen & Hlk & _).
  exists s, s'. split; [exact Hafter|]. split; [exact Hins|].
  split. { rewrite path_length by lia. rewrite (log2_leaf D) by lia. reflexivity. }
  split. { apply path_NoDup. lia. }
  split. { apply path_head. }
  split. { apply path_last. lia. }
  split. { intros i Hi. apply path_range in Hi; lia. }
  split.
  { intros i Hi.
    destruct (shaped_slot D s i HD Hs Hi) as (n & Hn & _ & _ & _ & Hlo & Hup).
    exists n. split; [exact Hn|]. rewrite Hlo, Hup.
    rewrite (path_covers D li i HD0 Hli). tauto. }
  split; [exact Hlen|].
  intros i n Hi Hn. rewrite (Hlk i n Hi Hn).
  destruct (on_path (li + 2 ^ D) i) eqn:Hon.
  - apply on_path_In in Hon. eexists. split; [reflexivity|].
    split; [reflexivity|]. split; [reflexivity|]. left. now split.
  - exists n. split; [reflexivity|]. split; [reflexivity|]. split; [reflexivity|].
    right. split; [|reflexivity]. intros Hin. apply on_path_In in Hin. congruence.
Qed.

Lemma insert_changes_exactly_the_path_witness :
  exists s s',
    RangeTree.after Contest.D zero_junk scenario = Some s /\
    RangeTree.insert Contest.D 9 (-4) s
    = Some (tt, s', flat_map touch (path (9 + RangeTree.MAX_LEAVES Contest.D))).
Proof.
  destruct (insert_changes_exactly_the_path Contest.D zero_junk scenario 9 (-4))
    as (s & s' & Hafter & Hins & _).
  - unfold depth_ok, Contest.D. lia.
  - reflexivity.
  - change (RangeTree.MAX_LEAVES Contest.D) with 65536. lia.
  - exists s, s'. split; [exact Hafter | exact Hins].
Defined.

(** C8 ([sum] is a pure read).  For every tree state and every bound,
    whenever [sum(upperBound)] returns, the tree after the call is the tree
    before it, all the array accesses were reads, and a second call with
    the same bound returns the same value.  And [sum] does return, for
    every bound in [[0, MAX_LEAVES]], on every tree reached by construction
    and valid inserts. *)
Theorem sum_is_a_pure_read D junk ops ub :
  (forall s r s' lg,
     RangeTree.sum D ub s = Some (r, s', lg) ->
     s' = s /\ forallb RangeTree.is_read lg = true /\
     RangeTree.sum_twice D ub s = Some ((r, r), s, lg ++ lg)) /\
  (depth_ok D -> valid_ops D ops = true -> 0 <= ub <= RangeTree.MAX_LEAVES D ->
   exists s r lg,
     RangeTree.after D junk ops = Some s /\
     RangeTree.sum D ub s = Some (r, s, lg) /\
     RangeTree.sum_twice D ub s = Some ((r, r), s, lg ++ lg)).
Proof.
  split.
  - intros s r s' lg Hsum.
    destruct (sum_reads D ub s r s' lg Hsum) as [-> Hrd].
    split; [reflexivity|]. split; [exact Hrd|].
    now apply sum_twice_same.
  - intros HD Hok Hub. destruct (constants D HD) as (HM & _).
    rewrite HM in Hub.
    destruct (after_spec D junk ops HD Hok) as (s & Hafter & Hs & Hv).
    assert (exists r lg, RangeTree.sum D ub s = Some (r, s, lg)) as (r & lg & Hsum).
    { destruct (Z.eq_dec ub 0) as [->|Hne].
      - destruct (Z.eq_dec D 0) as [->|HD1].
        + eexists _, _. apply sum_zero_flat.
        + eexists _, _. apply (sum_zero D ops s HD); trivial.
          unfold depth_ok in HD. lia.
      - destruct (sum_prefix D ops s ub HD Hs Hv ltac:(lia)) as (lg & Hsum & _).
        eexists _, _. exact Hsum. }
    exists s, r, lg. split; [exact Hafter|]. split; [exact Hsum|].
    now apply sum_twice_same.
Qed.

Lemma sum_is_a_pure_read_witness :
  exists s r lg,
    RangeTree.after Contest.D zero_junk scenario = Some s /\
    RangeTree.sum Contest.D 7 s = Some (r, s, lg) /\
    RangeTree.sum_twice Contest.D 7 s = Some ((r, r), s, lg ++ lg).
Proof.
  destruct (sum_is_a_pure_read Contest.D zero_junk scenario 7) as [Hpure Hruns].
  destruct Hruns as (s & r & lg & Hafter & Hsum & _).
  - unfold depth_ok, Contest.D. lia.
  - reflexivity.
  - change (RangeTree.MAX_LEAVES Contest.D) with 65536. lia.
  - exists s, r, lg. split; [exact Hafter|]. split; [exact Hsum|].
    exact (proj2 (proj2 (Hpure s r s lg Hsum))).
Defined.

(** C9 (the two constructors of [Node]).  For every slot [ni] in
    [1 .. TREE_SIZE - 1], [Node(ni)], which finds the level by halving [ni]
    down to 1, returns the node that the tree constructor stores in slot
    [ni] through [Node(d, ni)]; its level is the one [l] with
    [2^l <= ni < 2^(l+1)]. *)
Theorem slow_constructor_agrees D junk ni :
  depth_ok D -> 1 <= ni < RangeTree.TREE_SIZE D ->
  exists s n,
    RangeTree.new D junk = Some s /\
    RangeTree.nodes s !! Z.to_nat ni = Some n /\
    Node.make_slow ni = Some n /\
    2 ^ Node.level n <= ni < 2 ^ (Node.level n + 1) /\
    (forall l, 2 ^ l <= ni < 2 ^ (l + 1) -> l = Node.level n).
Proof.
  intros HD Hni. destruct (constants D HD) as (_ & HT & _).
  rewrite HT in Hni.
  destruct (new_spec D junk HD) as (s & Hnew & _ & _ & _ & Hk).
  exists s, (Node.make (Z.log2 ni) ni).
  split; [exact Hnew|]. split; [exact (Hk ni Hni)|].
  split; [exact (make_slow_spec D ni HD Hni)|].
  cbn [Node.level Node.make].
  pose proof (Z.log2_spec ni ltac:(lia)) as Hspec.
  split; [replace (Z.log2 ni + 1) with (Z.succ (Z.log2 ni)) by lia; exact Hspec|].
  intros l Hl. symmetry.
  assert (0 <= l) as Hl0.
  { destruct (Z.le_gt_cases 0 l) as [|Hneg]; [assumption|].
    assert (l + 1 <= 0) as Hle by lia.
    destruct (Z.eq_dec (l + 1) 0) as [E|E].
    - rewrite E in Hl. change (2 ^ 0) with 1 in Hl. lia.
    - rewrite (Z.pow_neg_r 2 (l + 1)) in Hl by lia. lia. }
  apply Z.log2_unique; [exact Hl0|].
  replace (Z.succ l) with (l + 1) by lia. exact Hl.
Qed.

Lemma slow_constructor_agrees_witness :
  exists s n,
    RangeTree.new Contest.D zero_junk = Some s /\
    RangeTree.nodes s !! Z.to_nat 65535 = Some n /\
    Node.make_slow 65535 = Some n.
Proof.
  destruct (slow_constructor_agrees Contest.D zero_junk 65535)
    as (s & n & Hnew & Hn & Hslow & _).
  - unfold depth_ok, Contest.D. lia.
  - change (RangeTree.TREE_SIZE Contest.D) with 131072. lia.
  - exists s, n. split; [exact Hnew|]. split; [exact Hn | exact Hslow].
Defined.

(** C10 ([sum(0)]).  On every tree reached by valid inserts, with a depth
    of at least 1 as in the source, [sum(0)] returns the sum of all deltas
    ever inserted (in [int]; in [Z] when that fits): from slot
    [MAX_LEAVES - 1] it never moves to a parent, and reads, right to left,
    every node of level [D - 1]. *)
Theorem sum_0_returns_the_grand_total D junk ops :
  depth_ok D -> 1 <= D -> valid_ops D ops = true ->
  RangeTree.query D junk ops 0 = Some (Int.wrap (grand_total ops)) /\
  (Int.in_range (grand_total ops) ->
   RangeTree.query D junk ops 0 = Some (grand_total ops)) /\
  exists s,
    RangeTree.after D junk ops = Some s /\
    RangeTree.sum D 0 s
    = Some (Int.wrap (grand_total ops), s,
            walk_left (Z.to_nat (2 ^ (D - 1))) (RangeTree.MAX_LEAVES D - 1)).
Proof.
  intros HD HD1 Hok. destruct (constants D HD) as (HM & _).
  destruct (after_spec D junk ops HD Hok) as (s & Hafter & Hs & Hv).
  pose proof (sum_zero D ops s HD HD1 Hs Hv) as Hsum.
  rewrite <- HM, (range_total_all D ops Hok) in Hsum.
  assert (RangeTree.query D junk ops 0 = Some (Int.wrap (grand_total ops))) as Hq.
  { unfold RangeTree.query. now rewrite Hafter, Hsum. }
  split; [exact Hq|]. split.
  - intros Hfit. rewrite Hq. now rewrite wrap_small.
  - exists s. split; [exact Hafter | exact Hsum].
Qed.

Lemma sum_0_returns_the_grand_total_witness :
  RangeTree.query Contest.D zero_junk scenario 0 = Some 17.
Proof.
  refine (proj1 (sum_0_returns_the_grand_total Contest.D zero_junk scenario _ _ _)).
  - unfold depth_ok, Contest.D. lia.
  - unfold Contest.D. lia.
  - reflexivity.
Defined.

(** * Further properties of the code *)

(** ** More arithmetic of [int] *)

Module IntMore.
Import Int IntFacts.

Lemma wrap_mod z : wrap z mod 2 ^ 32 = z mod 2 ^ 32.
Proof.
  unfold wrap. rewrite Zminus_mod_idemp_l. f_equal. lia.
Qed.

Lemma wrap_ext a b : a mod 2 ^ 32 = b mod 2 ^ 32 -> wrap a = wrap b.
Proof.
  intros H. unfold wrap. now rewrite Zplus_mod, H, <- Zplus_mod.
Qed.


Lemma sub_wrap a b : sub (wrap a) (wrap b) = wrap (a - b).
Proof.
  unfold sub. apply wrap_ext.
  now rewrite Zminus_mod, !wrap_mod, <- Zminus_mod.
Qed.


End IntMore.

(** ** Reachable trees, slot 0 included *)

Module StateFacts.
Import Int IntFacts IntMore Shape ShapeFacts NodeFacts TotalFacts PathFacts.
Import RangeTree TreeFacts InsertFacts ConstructFacts.

Lemma off_path_0 n : 1 <= n -> on_path n 0 = false.
Proof.
  intros Hn. destruct (on_path n 0) eqn:Hon; [|reflexivity].
  apply on_path_In, path_range in Hon; lia.
Qed.

Lemma insert_all_slot_0 D :
  depth_ok D ->
  forall ops s s' lg,
    shaped D s -> valid_ops D ops = true ->
    insert_all D ops s = Some (tt, s', lg) ->
    nodes s' !! Z.to_nat 0 = nodes s !! Z.to_nat 0.
Proof.
  intros HD. destruct (constants D HD) as (HM & _ & HN & _).
  induction ops as [|[li v] ops IH]; intros s s' lg Hs Hok Hrun.
  - cbn in Hrun. now injection Hrun as <- _.
  - cbn in Hok. apply andb_true_iff in Hok as [Hli Hok].
    apply andb_true_iff in Hli as [Hli1 Hli2].
    apply Z.leb_le in Hli1. apply Z.ltb_lt in Hli2. rewrite HM in Hli2.
    destruct (insert_spec D s li v HD Hs ltac:(lia))
      as (s1 & Hrun1 & _ & Hlk & Hs1 & _).
    cbn [insert_all] in Hrun. unfold bind in Hrun. rewrite Hrun1 in Hrun.
    destruct (insert_all D ops s1) as [[[[] s2] l2]|] eqn:E2; [|discriminate].
    injection Hrun as <- _.
    rewrite (IH s1 s2 l2 Hs1 Hok E2).
    destruct (shaped_slot0 D s ltac:(unfold depth_ok in HD; lia) Hs) as [n0 Hn0].
    rewrite (Hlk 0 n0 ltac:(lia) Hn0), off_path_0 by lia. now rewrite Hn0.
Qed.

(** Construction and valid inserts: the tree is well-formed, summarises
    the history, and still has in slot 0 what the storage held. *)
Lemma after_state D junk ops :
  depth_ok D -> valid_ops D ops = true ->
  exists s, after D junk ops = Some s /\ shaped D s /\ summarises D ops s /\
    nodes s !! Z.to_nat 0 = Some (junk 0%nat).
Proof.
  intros HD Hok.
  destruct (after_spec D junk ops HD Hok) as (s & Hafter & Hs & Hv).
  exists s. split; [exact Hafter|]. split; [exact Hs|]. split; [exact Hv|].
  destruct (new_spec D junk HD) as (s0 & Hnew & Hs0 & _ & H0 & _).
  unfold new in Hnew. unfold after, bind in Hafter.
  destruct (construct D (uninitialised D junk)) as [[[[] s0'] l0]|]; [|discriminate].
  injection Hnew as ->.
  destruct (insert_all D ops s0) as [[[[] s1] l1]|] eqn:E1; [|discriminate].
  injection Hafter as ->.
  now rewrite (insert_all_slot_0 D HD ops s0 s l1 Hs0 Hok E1).
Qed.

(** Two well-formed trees with the same slot 0 and the same [val] in every
    other slot are the same tree. *)
Lemma tree_ext D s1 s2 :
  0 <= D -> shaped D s1 -> shaped D s2 ->
  nodes s1 !! Z.to_nat 0 = nodes s2 !! Z.to_nat 0 ->
  (forall i n1 n2, 1 <= i < 2 ^ (D + 1) ->
     nodes s1 !! Z.to_nat i = Some n1 -> nodes s2 !! Z.to_nat i = Some n2 ->
     Node.val n1 = Node.val n2) ->
  s1 = s2.
Proof.
  intros HD [Hlen1 Hm1] [Hlen2 Hm2] H0 Hval.
  destruct s1 as [l1], s2 as [l2]. cbn [nodes] in *. f_equal.
  apply list_eq. intros j.
  destruct (Nat.eq_dec j 0%nat) as [->|Hj0]; [exact H0|].
  destruct (Z_lt_le_dec (Z.of_nat j) (2 ^ (D + 1))) as [Hlt|Hge].
  - destruct (Hm1 (Z.of_nat j) ltac:(lia)) as (n1 & Hn1 & Hl1 & Hi1).
    destruct (Hm2 (Z.of_nat j) ltac:(lia)) as (n2 & Hn2 & Hl2 & Hi2).
    pose proof (Hval (Z.of_nat j) n1 n2 ltac:(lia) Hn1 Hn2) as Hv.
    rewrite Nat2Z.id in Hn1, Hn2. rewrite Hn1, Hn2. f_equal.
    destruct n1, n2. cbn in *. congruence.
  - rewrite !lookup_ge_None_2 by lia. reflexivity.
Qed.

(** Sums over a range are sums of leaf totals, so histories that agree on
    the [int] total of every leaf agree on every range. *)
Lemma range_total_by_leaves ops1 ops2 lo :
  forall n : nat,
    (forall li, lo <= li < lo + Z.of_nat n ->
       wrap (range_total li (li + 1) ops1) = wrap (range_total li (li + 1) ops2)) ->
    wrap (range_total lo (lo + Z.of_nat n) ops1)
    = wrap (range_total lo (lo + Z.of_nat n) ops2).
Proof.
  induction n as [|n IH]; intros Hleaf.
  - now rewrite Z.add_0_r, !range_total_empty.
  - rewrite Nat2Z.inj_succ.
    replace (lo + Z.succ (Z.of_nat n)) with (lo + Z.of_nat n + 1) by lia.
    rewrite !(range_total_split lo (lo + Z.of_nat n) (lo + Z.of_nat n + 1)) by lia.
    rewrite <- !add_wrap. rewrite IH by (intros; apply Hleaf; lia).
    now rewrite (Hleaf (lo + Z.of_nat n)) by lia.
Qed.

Lemma same_leaf_totals_spec D ops1 ops2 :
  depth_ok D -> same_leaf_totals D ops1 ops2 = true ->
  forall li, 0 <= li < 2 ^ D ->
    wrap (range_total li (li + 1) ops1) = wrap (range_total li (li + 1) ops2).
Proof.
  intros HD Hsame li Hli. destruct (constants D HD) as (HM & _).
  unfold same_leaf_totals in Hsame. rewrite HM, forallb_forall in Hsame.
  apply Z.eqb_eq, Hsame, in_map_iff. exists (Z.to_nat li).
  split; [lia|]. apply in_seq. lia.
Qed.

(** The tree is a function of the per-leaf [int] totals. *)
Lemma after_by_leaves D junk ops1 ops2 :
  depth_ok D -> valid_ops D ops1 = true -> valid_ops D ops2 = true ->
  (forall li, 0 <= li < 2 ^ D ->
     wrap (range_total li (li + 1) ops1) = wrap (range_total li (li + 1) ops2)) ->
  after D junk ops1 = after D junk ops2.
Proof.
  intros HD Hok1 Hok2 Hleaf.
  assert (0 <= D) as HD0 by (unfold depth_ok in HD; lia).
  destruct (after_state D junk ops1 HD Hok1) as (s1 & Ha1 & Hs1 & Hv1 & H01).
  destruct (after_state D junk ops2 HD Hok2) as (s2 & Ha2 & Hs2 & Hv2 & H02).
  rewrite Ha1, Ha2. f_equal.
  apply (tree_ext D s1 s2 HD0 Hs1 Hs2); [congruence|].
  intros i n1 n2 Hi Hn1 Hn2.
  rewrite (slot_val D ops1 s1 i n1 HD Hs1 Hv1 Hi Hn1).
  rewrite (slot_val D ops2 s2 i n2 HD Hs2 Hv2 Hi Hn2).
  destruct (range_bounds D i HD0 Hi) as (_ & Hsz & Hul & Hlo & Hup & _).
  replace (up D i) with (lo D i + Z.of_nat (Z.to_nat (size D i))) by lia.
  apply range_total_by_leaves. intros li Hli. apply Hleaf. lia.
Qed.

End StateFacts.

Module HistoryFacts.
Import Int IntFacts IntMore TotalFacts NodeFacts.

Lemma valid_ops_leaf D li v :
  depth_ok D -> 0 <= li < RangeTree.MAX_LEAVES D ->
  valid_ops D [(li, v)] = true.
Proof.
  intros HD Hli. unfold valid_ops. cbn [forallb fst].
  destruct (Z.leb_spec 0 li), (Z.ltb_spec li (RangeTree.MAX_LEAVES D));
    try lia; reflexivity.
Qed.

Lemma valid_ops_snoc D ops li v :
  depth_ok D -> valid_ops D ops = true -> 0 <= li < RangeTree.MAX_LEAVES D ->
  valid_ops D (ops ++ [(li, v)]) = true.
Proof.
  intros HD Hok Hli. now rewrite valid_ops_app, Hok, valid_ops_leaf.
Qed.

Lemma range_total_snoc lo hi ops li v :
  range_total lo hi (ops ++ [(li, v)])
  = range_total lo hi ops + (if (lo <=? li) && (li <? hi) then v else 0).
Proof. now rewrite range_total_app, range_total_single. Qed.

End HistoryFacts.

Import IntMore StateFacts HistoryFacts FuelFacts.

(** X1 (the tree is a function of the leaf totals).  Two valid histories
    that give every leaf the same [int] total leave, after construction on
    the same storage, the same tree: same [val] in every node, same
    metadata, same slot 0. *)
Theorem tree_depends_on_leaf_totals_only D junk ops1 ops2 :
  depth_ok D -> valid_ops D ops1 = true -> valid_ops D ops2 = true ->
  same_leaf_totals D ops1 ops2 = true ->
  exists s,
    RangeTree.after D junk ops1 = Some s /\
    RangeTree.after D junk ops2 = Some s.
Proof.
  intros HD Hok1 Hok2 Hsame.
  destruct (after_state D junk ops1 HD Hok1) as (s & Ha & _).
  exists s. split; [exact Ha|]. rewrite <- Ha. symmetry.
  apply (after_by_leaves D junk ops1 ops2 HD Hok1 Hok2).
  now apply same_leaf_totals_spec.
Qed.

Lemma tree_depends_on_leaf_totals_only_witness :
  exists s,
    RangeTree.after 3 zero_junk scenario = Some s /\
    RangeTree.after 3 zero_junk [(6, 4); (3, 7); (6, 6)] = Some s.
Proof.
  apply (tree_depends_on_leaf_totals_only 3 zero_junk).
  - unfold depth_ok. lia.
  - reflexivity.
  - reflexivity.
  - reflexivity.
Defined.

(** X2 (inserts commute).  On a tree reached by valid inserts, two further
    inserts leave the same tree whichever comes first. *)
Theorem inserts_commute D junk ops a x b y :
  depth_ok D -> valid_ops D ops = true ->
  0 <= a < RangeTree.MAX_LEAVES D -> 0 <= b < RangeTree.MAX_LEAVES D ->
  exists s,
    RangeTree.after D junk (ops ++ [(a, x)] ++ [(b, y)]) = Some s /\
    RangeTree.after D junk (ops ++ [(b, y)] ++ [(a, x)]) = Some s.
Proof.
  intros HD Hok Ha Hb.
  assert (valid_ops D (ops ++ [(a, x)] ++ [(b, y)]) = true) as Hok1.
  { rewrite app_assoc. auto using valid_ops_snoc. }
  assert (valid_ops D (ops ++ [(b, y)] ++ [(a, x)]) = true) as Hok2.
  { rewrite app_assoc. auto using valid_ops_snoc. }
  destruct (after_state D junk _ HD Hok1) as (s & Hafter & _).
  exists s. split; [exact Hafter|]. rewrite <- Hafter. symmetry.
  apply (after_by_leaves D junk _ _ HD Hok1 Hok2). intros li _.
  rewrite !app_assoc, !range_total_snoc. f_equal. lia.
Qed.

Lemma inserts_commute_witness :
  exists s,
    RangeTree.after Contest.D zero_junk (scenario ++ [(9, -4)] ++ [(3, 1)]) = Some s /\
    RangeTree.after Contest.D zero_junk (scenario ++ [(3, 1)] ++ [(9, -4)]) = Some s.
Proof.
  apply (inserts_commute Contest.D zero_junk scenario 9 (-4) 3 1).
  - unfold depth_ok, Contest.D. lia.
  - reflexivity.
  - change (RangeTree.MAX_LEAVES Contest.D) with 65536. lia.
  - change (RangeTree.MAX_LEAVES Contest.D) with 65536. lia.
Defined.

(** X3 (inserts at one leaf accumulate).  [insert(li, v1)] followed by
    [insert(li, v2)] leaves the tree that the single call
    [insert(li, v1 + v2)] leaves, the sum being taken in [int]. *)
Theorem inserts_accumulate D junk ops li v1 v2 :
  depth_ok D -> valid_ops D ops = true -> 0 <= li < RangeTree.MAX_LEAVES D ->
  exists s,
    RangeTree.after D junk (ops ++ [(li, v1)] ++ [(li, v2)]) = Some s /\
    RangeTree.after D junk (ops ++ [(li, Int.add v1 v2)]) = Some s.
Proof.
  intros HD Hok Hli.
  assert (valid_ops D (ops ++ [(li, v1)] ++ [(li, v2)]) = true) as Hok1.
  { rewrite app_assoc. auto using valid_ops_snoc. }
  assert (valid_ops D (ops ++ [(li, Int.add v1 v2)]) = true) as Hok2
    by auto using valid_ops_snoc.
  destruct (after_state D junk _ HD Hok1) as (s & Hafter & _).
  exists s. split; [exact Hafter|]. rewrite <- Hafter. symmetry.
  apply (after_by_leaves D junk _ _ HD Hok1 Hok2). intros l _.
  rewrite !app_assoc, !range_total_snoc.
  destruct ((l <=? li) && (li <? l + 1)).
  - unfold Int.add. rewrite wrap_add_r. f_equal. lia.
  - f_equal. lia.
Qed.

Lemma inserts_accumulate_witness :
  exists s,
    RangeTree.after Contest.D zero_junk (scenario ++ [(3, 2147483647)] ++ [(3, 1)])
    = Some s /\
    RangeTree.after Contest.D zero_junk (scenario ++ [(3, Int.add 2147483647 1)])
    = Some s.
Proof.
  apply (inserts_accumulate Contest.D zero_junk scenario 3 2147483647 1).
  - unfold depth_ok, Contest.D. lia.
  - reflexivity.
  - change (RangeTree.MAX_LEAVES Contest.D) with 65536. lia.
Defined.

(** X4 (an insert is undone by the opposite insert).  On a tree reached by
    valid inserts, [insert(li, v)] followed by [insert(li, -v)] gives back
    the tree as it was before the two calls. *)
Theorem insert_then_opposite_restores D junk ops li v :
  depth_ok D -> valid_ops D ops = true -> 0 <= li < RangeTree.MAX_LEAVES D ->
  exists s,
    RangeTree.after D junk ops = Some s /\
    RangeTree.after D junk (ops ++ [(li, v)] ++ [(li, Int.sub 0 v)]) = Some s.
Proof.
  intros HD Hok Hli.
  assert (valid_ops D (ops ++ [(li, v)] ++ [(li, Int.sub 0 v)]) = true) as Hok2.
  { rewrite app_assoc. auto using valid_ops_snoc. }
  destruct (after_state D junk _ HD Hok) as (s & Hafter & _).
  exists s. split; [exact Hafter|]. rewrite <- Hafter. symmetry.
  apply (after_by_leaves D junk _ _ HD Hok Hok2). intros l _.
  rewrite !app_assoc, !range_total_snoc.
  destruct ((l <=? li) && (li <? l + 1)).
  - unfold Int.sub. rewrite wrap_add_r. f_equal. lia.
  - f_equal. lia.
Qed.

Lemma insert_then_opposite_restores_witness :
  exists s,
    RangeTree.after Contest.D zero_junk scenario = Some s /\
    RangeTree.after Contest.D zero_junk
      (scenario ++ [(9, -4)] ++ [(9, Int.sub 0 (-4))]) = Some s.
Proof.
  apply (insert_then_opposite_restores Contest.D zero_junk scenario 9 (-4)).
  - unfold depth_ok, Contest.D. lia.
  - reflexivity.
  - change (RangeTree.MAX_LEAVES Contest.D) with 65536. lia.
Defined.

Module GeometryFacts.
Import Shape ShapeFacts.

(** The two children of slot [p]. *)
Lemma children_range D p :
  0 <= D -> 1 <= p < 2 ^ D ->
  1 <= 2 * p < 2 ^ (D + 1) /\ 1 <= 2 * p + 1 < 2 ^ (D + 1) /\
  (2 * p) / 2 = p /\ (2 * p + 1) / 2 = p /\
  Z.log2 (2 * p) = Z.log2 p + 1 /\ Z.log2 (2 * p + 1) = Z.log2 p + 1 /\
  lo D (2 * p) = lo D p /\ up D (2 * p) = lo D (2 * p + 1) /\
  up D (2 * p + 1) = up D p.
Proof.
  intros HD Hp.
  assert (2 ^ (D + 1) = 2 * 2 ^ D) as HN2.
  { rewrite Z.pow_add_r by lia. change (2 ^ 1) with 2. lia. }
  assert ((2 * p) / 2 = p) as He.
  { symmetry. apply (Z.div_unique (2 * p) 2 p 0); lia. }
  assert ((2 * p + 1) / 2 = p) as Ho.
  { symmetry. apply (Z.div_unique (2 * p + 1) 2 p 1); lia. }
  assert ((2 * p) mod 2 = 0) as Hme.
  { symmetry. apply (Z.mod_unique (2 * p) 2 p 0); lia. }
  assert ((2 * p + 1) mod 2 = 1) as Hmo.
  { symmetry. apply (Z.mod_unique (2 * p + 1) 2 p 1); lia. }
  destruct (parent_range D (2 * p) HD ltac:(lia)) as (_ & _ & Hs1 & Hu1 & Hl1).
  destruct (parent_range D (2 * p + 1) HD ltac:(lia)) as (_ & _ & Hs2 & Hu2 & Hl2).
  rewrite He, Hme in *. rewrite Ho, Hmo in *.
  destruct (range_bounds D (2 * p) HD ltac:(lia)) as (_ & _ & Hul & _).
  pose proof (log2_half (2 * p) ltac:(lia)) as Hh1.
  pose proof (log2_half (2 * p + 1) ltac:(lia)) as Hh2.
  rewrite He in Hh1. rewrite Ho in Hh2.
  repeat split; lia.
Qed.

End GeometryFacts.

Import GeometryFacts.

(** X5 (what the methods of [Node] return).  On a tree reached by valid
    inserts, the node in any slot [ni] of [1 .. TREE_SIZE - 1] knows its own
    slot; its level is in [[0, D]] and [blevel()] is [D - level];
    [leveli()] is in [[0, 2^level)]; the range [[lower_li(), upper_li())]
    starts at [leveli() * 2^blevel()], holds [2^blevel()] leaves and lies
    inside [[0, MAX_LEAVES]]. *)
Theorem node_methods_on_the_tree D junk ops ni :
  depth_ok D -> valid_ops D ops = true -> 1 <= ni < RangeTree.TREE_SIZE D ->
  exists s n,
    RangeTree.after D junk ops = Some s /\
    RangeTree.nodes s !! Z.to_nat ni = Some n /\
    Node.ni n = ni /\
    0 <= Node.level n <= D /\
    Node.blevel D n = D - Node.level n /\
    0 <= Node.leveli n < 2 ^ Node.level n /\
    Node.lower_li D n = Node.leveli n * 2 ^ Node.blevel D n /\
    Node.upper_li D n = Node.lower_li D n + 2 ^ Node.blevel D n /\
    0 <= Node.lower_li D n /\ Node.upper_li D n <= RangeTree.MAX_LEAVES D.
Proof.
  intros HD Hok Hni. destruct (constants D HD) as (HM & HT & _).
  rewrite HT in Hni. rewrite HM.
  assert (0 <= D) as HD0 by (unfold depth_ok in HD; lia).
  destruct (after_spec D junk ops HD Hok) as (s & Hafter & Hs & _).
  destruct Hs as [_ Hmeta]. destruct (Hmeta ni Hni) as (n & Hn & Hl & Hi).
  destruct (methods D n ni HD Hni Hl Hi) as (Hbl & Hli & Hlo & Hup).
  destruct (level_facts D ni HD0 Hni) as (Hlv & Hb & _).
  destruct (range_bounds D ni HD0 Hni) as (Hp0 & _ & Hul & Hlo0 & Hup0 & _).
  exists s, n. split; [exact Hafter|]. split; [exact Hn|].
  rewrite Hbl, Hli, Hlo, Hup, Hl.
  unfold Shape.pos, Shape.lo, Shape.up, Shape.size in *.
  repeat split; lia.
Qed.

Lemma node_methods_on_the_tree_witness :
  exists s n,
    RangeTree.after Contest.D zero_junk scenario = Some s /\
    RangeTree.nodes s !! Z.to_nat 65535 = Some n /\
    Node.ni n = 65535.
Proof.
  destruct (node_methods_on_the_tree Contest.D zero_junk scenario 65535)
    as (s & n & Hafter & Hn & Hni & _).
  - unfold depth_ok, Contest.D. lia.
  - reflexivity.
  - change (RangeTree.TREE_SIZE Contest.D) with 131072. lia.
  - exists s, n. split; [exact Hafter|]. split; [exact Hn | exact Hni].
Defined.

(** X6 (children split the range of their parent).  For every internal
    slot [p] of [1 .. MAX_LEAVES - 1], the slots [2p] and [2p + 1] are in
    the tree, [parent_i] sends both to [p], both are one level below [p],
    and their ranges cut the range of [p] in two:
    [lower_li(2p) = lower_li(p)], [upper_li(2p) = lower_li(2p + 1)],
    [upper_li(2p + 1) = upper_li(p)]. *)
Theorem children_split_the_parent_range D junk ops p :
  depth_ok D -> valid_ops D ops = true -> 1 <= p < RangeTree.MAX_LEAVES D ->
  exists s np nl nr,
    RangeTree.after D junk ops = Some s /\
    RangeTree.nodes s !! Z.to_nat p = Some np /\
    RangeTree.nodes s !! Z.to_nat (2 * p) = Some nl /\
    RangeTree.nodes s !! Z.to_nat (2 * p + 1) = Some nr /\
    RangeTree.parent_i (2 * p) = p /\ RangeTree.parent_i (2 * p + 1) = p /\
    Node.level nl = Node.level np + 1 /\ Node.level nr = Node.level np + 1 /\
    Node.lower_li D nl = Node.lower_li D np /\
    Node.upper_li D nl = Node.lower_li D nr /\
    Node.upper_li D nr = Node.upper_li D np.
Proof.
  intros HD Hok Hp. destruct (constants D HD) as (HM & _ & _ & HN2).
  rewrite HM in Hp.
  assert (0 <= D) as HD0 by (unfold depth_ok in HD; lia).
  destruct (after_spec D junk ops HD Hok) as (s & Hafter & Hs & _).
  destruct (children_range D p HD0 Hp)
    as (Hl & Hr & He & Ho & Hle & Hlo & H1 & H2 & H3).
  destruct (shaped_slot D s p HD Hs ltac:(lia)) as (np & Hnp & Hlp & _ & _ & Hlop & Hupp).
  destruct (shaped_slot D s (2 * p) HD Hs Hl) as (nl & Hnl & Hll & _ & _ & Hlol & Hupl).
  destruct (shaped_slot D s (2 * p + 1) HD Hs Hr) as (nr & Hnr & Hlr & _ & _ & Hlor & Hupr).
  exists s, np, nl, nr.
  split; [exact Hafter|]. split; [exact Hnp|]. split; [exact Hnl|]. split; [exact Hnr|].
  unfold RangeTree.parent_i. rewrite !Z.quot_div_nonneg by lia.
  rewrite He, Ho, Hll, Hlr, Hlp, Hlol, Hupl, Hlor, Hupr, Hlop, Hupp.
  repeat split; lia.
Qed.

Lemma children_split_the_parent_range_witness :
  exists s np nl nr,
    RangeTree.after Contest.D zero_junk scenario = Some s /\
    RangeTree.nodes s !! Z.to_nat 5 = Some np /\
    RangeTree.nodes s !! Z.to_nat (2 * 5) = Some nl /\
    RangeTree.nodes s !! Z.to_nat (2 * 5 + 1) = Some nr /\
    Node.upper_li Contest.D nl = Node.lower_li Contest.D nr.
Proof.
  destruct (children_split_the_parent_range Contest.D zero_junk scenario 5)
    as (s & np & nl & nr & Hafter & Hnp & Hnl & Hnr & _ & _ & _ & _ & _ & Hmid & _).
  - unfold depth_ok, Contest.D. lia.
  - reflexivity.
  - change (RangeTree.MAX_LEAVES Contest.D) with 65536. lia.
  - exists s, np, nl, nr. repeat (split; [assumption|]). exact Hmid.
Defined.

(** X7 (a parent holds the sum of its children).  On a tree reached by
    valid inserts, for every internal slot [p] of [1 .. MAX_LEAVES - 1],
    [nodes[p].val == nodes[2p].val + nodes[2p + 1].val] in [int]. *)
Theorem parent_val_is_sum_of_children D junk ops p :
  depth_ok D -> valid_ops D ops = true -> 1 <= p < RangeTree.MAX_LEAVES D ->
  exists s np nl nr,
    RangeTree.after D junk ops = Some s /\
    RangeTree.nodes s !! Z.to_nat p = Some np /\
    RangeTree.nodes s !! Z.to_nat (2 * p) = Some nl /\
    RangeTree.nodes s !! Z.to_nat (2 * p + 1) = Some nr /\
    Node.val np = Int.add (Node.val nl) (Node.val nr).
Proof.
  intros HD Hok Hp. destruct (constants D HD) as (HM & _ & _ & HN2).
  rewrite HM in Hp.
  assert (0 <= D) as HD0 by (unfold depth_ok in HD; lia).
  destruct (after_spec D junk ops HD Hok) as (s & Hafter & Hs & Hv).
  destruct (children_range D p HD0 Hp)
    as (Hl & Hr & _ & _ & _ & _ & H1 & H2 & H3).
  destruct (shaped_slot D s p HD Hs ltac:(lia)) as (np & Hnp & _).
  destruct (shaped_slot D s (2 * p) HD Hs Hl) as (nl & Hnl & _).
  destruct (shaped_slot D s (2 * p + 1) HD Hs Hr) as (nr & Hnr & _).
  exists s, np, nl, nr.
  split; [exact Hafter|]. split; [exact Hnp|]. split; [exact Hnl|]. split; [exact Hnr|].
  rewrite (slot_val D ops s p np HD Hs Hv ltac:(lia) Hnp).
  rewrite (slot_val D ops s (2 * p) nl HD Hs Hv Hl Hnl).
  rewrite (slot_val D ops s (2 * p + 1) nr HD Hs Hv Hr Hnr).
  rewrite add_wrap. f_equal.
  destruct (range_bounds D (2 * p) HD0 Hl) as (_ & ? & ? & _).
  destruct (range_bounds D (2 * p + 1) HD0 Hr) as (_ & ? & ? & _).
  rewrite <- H1, <- H3, <- H2.
  apply range_total_split. lia.
Qed.

Lemma parent_val_is_sum_of_children_witness :
  exists s np nl nr,
    RangeTree.after Contest.D zero_junk scenario = Some s /\
    RangeTree.nodes s !! Z.to_nat 1 = Some np /\
    RangeTree.nodes s !! Z.to_nat (2 * 1) = Some nl /\
    RangeTree.nodes s !! Z.to_nat (2 * 1 + 1) = Some nr /\
    Node.val np = Int.add (Node.val nl) (Node.val nr).
Proof.
  apply (parent_val_is_sum_of_children Contest.D zero_junk scenario 1).
  - unfold depth_ok, Contest.D. lia.
  - reflexivity.
  - change (RangeTree.MAX_LEAVES Contest.D) with 65536. lia.
Defined.

(** X8 (a level tiles the leaves).  On a tree reached by valid inserts, for
    the node in any slot [ni] of [1 .. TREE_SIZE - 1]: if [leveli()] is 0
    its range starts at leaf 0; if [leveli()] is [2^level - 1] its range
    ends at [MAX_LEAVES]; otherwise slot [ni - 1] holds the node of the
    same level whose range ends where this one starts. *)
Theorem level_tiles_the_leaves D junk ops ni :
  depth_ok D -> valid_ops D ops = true -> 1 <= ni < RangeTree.TREE_SIZE D ->
  exists s n,
    RangeTree.after D junk ops = Some s /\
    RangeTree.nodes s !! Z.to_nat ni = Some n /\
    (Node.leveli n = 0 -> Node.lower_li D n = 0) /\
    (Node.leveli n = 2 ^ Node.level n - 1 ->
     Node.upper_li D n = RangeTree.MAX_LEAVES D) /\
    (0 < Node.leveli n ->
     exists m, RangeTree.nodes s !! Z.to_nat (ni - 1) = Some m /\
       Node.level m = Node.level n /\
       Node.leveli m = Node.leveli n - 1 /\
       Node.upper_li D m = Node.lower_li D n).
Proof.
  intros HD Hok Hni. destruct (constants D HD) as (HM & HT & _).
  rewrite HT in Hni. rewrite HM.
  assert (0 <= D) as HD0 by (unfold depth_ok in HD; lia).
  destruct (after_spec D junk ops HD Hok) as (s & Hafter & Hs & _).
  destruct (shaped_slot D s ni HD Hs Hni) as (n & Hn & Hl & _ & Hli & Hlo & Hup).
  destruct (level_facts D ni HD0 Hni) as (_ & _ & Hm & _).
  exists s, n. split; [exact Hafter|]. split; [exact Hn|].
  rewrite Hli, Hlo, Hup, Hl. split; [|split].
  - apply leftmost_range.
  - intros Hlast. unfold Shape.up. rewrite Hlast. unfold Shape.size. lia.
  - intros Hpos.
    destruct (left_range D ni HD0 Hni Hpos) as (H1 & Hll & Hlp & _ & Hlu).
    destruct (shaped_slot D s (ni - 1) HD Hs ltac:(lia))
      as (m & Hmn & Hml & _ & Hmli & _ & Hmup).
    exists m. split; [exact Hmn|]. rewrite Hml, Hmli, Hmup. auto.
Qed.

Lemma level_tiles_the_leaves_witness :
  exists s n,
    RangeTree.after Contest.D zero_junk scenario = Some s /\
    RangeTree.nodes s !! Z.to_nat 65535 = Some n /\
    (Node.leveli n = 2 ^ Node.level n - 1 ->
     Node.upper_li Contest.D n = RangeTree.MAX_LEAVES Contest.D).
Proof.
  destruct (level_tiles_the_leaves Contest.D zero_junk scenario 65535)
    as (s & n & Hafter & Hn & _ & Hlast & _).
  - unfold depth_ok, Contest.D. lia.
  - reflexivity.
  - change (RangeTree.TREE_SIZE Contest.D) with 131072. lia.
  - exists s, n. split; [exact Hafter|]. split; [exact Hn | exact Hlast].
Defined.

(** X9 ([node_i] and the leaves).  For every leaf index [li] of
    [[0, MAX_LEAVES)], [node_i(li)] is a slot of
    [[MAX_LEAVES, TREE_SIZE)] with [node_i(li) - MAX_LEAVES = li]; on a tree
    reached by valid inserts the node there has level [D], position [li]
    on its level, the range [[li, li + 1)], and as [val] the [int] sum of
    the deltas inserted at [li]. *)
Theorem node_i_is_the_leaf_slot D junk ops li :
  depth_ok D -> valid_ops D ops = true -> 0 <= li < RangeTree.MAX_LEAVES D ->
  RangeTree.MAX_LEAVES D <= RangeTree.node_i D li < RangeTree.TREE_SIZE D /\
  RangeTree.node_i D li - RangeTree.MAX_LEAVES D = li /\
  exists s n,
    RangeTree.after D junk ops = Some s /\
    RangeTree.nodes s !! Z.to_nat (RangeTree.node_i D li) = Some n /\
    Node.level n = D /\ Node.leveli n = li /\
    Node.lower_li D n = li /\ Node.upper_li D n = li + 1 /\
    Node.val n = Int.wrap (range_total li (li + 1) ops).
Proof.
  intros HD Hok Hli. destruct (constants D HD) as (HM & HT & _ & HN2).
  rewrite HM in Hli. rewrite HM, HT, node_i_eq by assumption.
  assert (0 <= D) as HD0 by (unfold depth_ok in HD; lia).
  split; [lia|]. split; [lia|].
  destruct (after_spec D junk ops HD Hok) as (s & Hafter & Hs & Hv).
  destruct (shaped_slot D s (li + 2 ^ D) HD Hs ltac:(lia))
    as (n & Hn & Hl & _ & Hpos & Hlo & Hup).
  destruct (leaf_range D (li + 2 ^ D) HD0 ltac:(lia)) as (Hlog & _ & Hlo' & Hup').
  exists s, n. split; [exact Hafter|]. split; [exact Hn|].
  assert (1 <= li + 2 ^ D < 2 ^ (D + 1)) as Hslot by lia.
  rewrite (slot_val D ops s (li + 2 ^ D) n HD Hs Hv Hslot Hn).
  rewrite Hl, Hpos, Hlo, Hup, Hlo', Hup', Hlog. unfold Shape.pos. rewrite Hlog.
  replace (li + 2 ^ D - 2 ^ D) with li by lia.
  repeat split; reflexivity.
Qed.

Lemma node_i_is_the_leaf_slot_witness :
  RangeTree.node_i Contest.D 9 - RangeTree.MAX_LEAVES Contest.D = 9.
Proof.
  refine (proj1 (proj2 (node_i_is_the_leaf_slot Contest.D zero_junk scenario 9 _ _ _))).
  - unfold depth_ok, Contest.D. lia.
  - reflexivity.
  - change (RangeTree.MAX_LEAVES Contest.D) with 65536. lia.
Defined.

Module ConstructLog.
Import Int IntFacts RangeTree.

Lemma writes_from_app a b i :
  writes_from (a + b) i = writes_from a i ++ writes_from b (i + Z.of_nat a).
Proof.
  revert i. induction a as [|a IH]; intros i; cbn [writes_from Nat.add app].
  - f_equal. lia.
  - rewrite IH. do 3 f_equal. lia.
Qed.

Lemma store_inv i n s u s' lg :
  store i n s = Some (u, s', lg) -> lg = [Wr i].
Proof.
  unfold store. destruct (_ && _); [|discriminate].
  intros H. now injection H as _ _ <-.
Qed.

Lemma fill_level_log d :
  forall n i s s' lg,
    for_count n i (fun ni => store ni (Node.make d ni)) s = Some (tt, s', lg) ->
    lg = writes_from n i.
Proof.
  induction n as [|n IH]; intros i s s' lg Hrun.
  - cbn in Hrun. now injection Hrun as _ <-.
  - cbn [for_count] in Hrun. unfold bind in Hrun.
    destruct (store i (Node.make d i) s) as [[[[] s1] l1]|] eqn:E1; [|discriminate].
    destruct (for_count n (i + 1) _ s1) as [[[[] s2] l2]|] eqn:E2; [|discriminate].
    injection Hrun as _ <-.
    apply store_inv in E1 as ->. apply IH in E2 as ->. reflexivity.
Qed.

Lemma fill_levels_log :
  forall n d s s' lg,
    0 <= d -> d + Z.of_nat n <= 30 ->
    for_count n d (fun d =>
      for_range (shl 1 d) (shl 2 d) (fun ni => store ni (Node.make d ni))) s
    = Some (tt, s', lg) ->
    lg = writes_from (Z.to_nat (2 ^ (d + Z.of_nat n) - 2 ^ d)) (2 ^ d).
Proof.
  induction n as [|n IH]; intros d s s' lg Hd Hdn Hrun.
  - cbn in Hrun. injection Hrun as _ <-.
    rewrite Z.add_0_r, Z.sub_diag. reflexivity.
  - cbn [for_count] in Hrun. unfold bind in Hrun. unfold for_range at 1 in Hrun.
    rewrite shl_1, shl_2 in Hrun by lia.
    destruct (for_count (Z.to_nat (2 ^ (d + 1) - 2 ^ d)) (2 ^ d) _ s)
      as [[[[] s1] l1]|] eqn:E1; [|discriminate].
    destruct (for_count n (d + 1) _ s1) as [[[[] s2] l2]|] eqn:E2; [|discriminate].
    injection Hrun as _ <-.
    apply fill_level_log in E1 as ->. apply IH in E2 as ->; [|lia|lia].
    assert (0 < 2 ^ d) by (apply Z.pow_pos_nonneg; lia).
    assert (2 ^ (d + 1) = 2 * 2 ^ d) as Hd1.
    { rewrite Z.pow_add_r by lia. change (2 ^ 1) with 2. lia. }
    assert (2 ^ (d + 1) <= 2 ^ (d + 1 + Z.of_nat n)) by (apply Z.pow_le_mono_r; lia).
    replace (d + Z.of_nat (S n)) with (d + 1 + Z.of_nat n) by lia.
    replace (Z.to_nat (2 ^ (d + 1 + Z.of_nat n) - 2 ^ d))
      with (Z.to_nat (2 ^ (d + 1) - 2 ^ d)
            + Z.to_nat (2 ^ (d + 1 + Z.of_nat n) - 2 ^ (d + 1)))%nat by lia.
    rewrite writes_from_app. do 2 f_equal. lia.
Qed.

End ConstructLog.

Import ConstructLog.

(** X10 (the constructor).  [RangeTree()] assigns the slots
    [1, 2, ..., TREE_SIZE - 1], each once and in this order, and reads
    nothing.  It leaves [Node(level, ni)] with [val == 0] in every slot
    [ni] of [1 .. TREE_SIZE - 1], where [2^level <= ni < 2^(level + 1)],
    and leaves slot 0 as the storage had it. *)
Theorem constructor_fills_slots_1_to_end D junk :
  depth_ok D ->
  exists s,
    RangeTree.construct D (RangeTree.uninitialised D junk)
    = Some (tt, s, writes_from (Z.to_nat (RangeTree.TREE_SIZE D - 1)) 1) /\
    Z.of_nat (length (RangeTree.nodes s)) = RangeTree.TREE_SIZE D /\
    RangeTree.nodes s !! Z.to_nat 0 = Some (junk 0%nat) /\
    forall ni, 1 <= ni < RangeTree.TREE_SIZE D ->
      exists n, RangeTree.nodes s !! Z.to_nat ni = Some n /\
        Node.ni n = ni /\ Node.val n = 0 /\
        2 ^ Node.level n <= ni < 2 ^ (Node.level n + 1).
Proof.
  intros HD. destruct (constants D HD) as (_ & HT & _). rewrite HT.
  destruct (construct_spec D junk HD) as (s & lg & Hrun & Hlen & H0 & Hk).
  exists s. split; [|split; [exact Hlen | split; [exact H0|]]].
  - rewrite Hrun. do 2 f_equal.
    unfold RangeTree.construct in Hrun. unfold RangeTree.for_range at 1 in Hrun.
    unfold depth_ok in HD.
    apply fill_levels_log in Hrun; [| lia | lia].
    rewrite Hrun.
    replace (0 + Z.of_nat (Z.to_nat (D + 1 - 0))) with (D + 1) by lia.
    reflexivity.
  - intros ni Hni. rewrite (Hk ni Hni). eexists. split; [reflexivity|].
    cbn [Node.ni Node.val Node.level Node.make].
    pose proof (Z.log2_spec ni ltac:(lia)) as Hspec.
    replace (Z.log2 ni + 1) with (Z.succ (Z.log2 ni)) by lia. auto.
Qed.

Lemma constructor_fills_slots_1_to_end_witness :
  exists s,
    RangeTree.construct Contest.D (RangeTree.uninitialised Contest.D odd_junk)
    = Some (tt, s, writes_from (Z.to_nat (RangeTree.TREE_SIZE Contest.D - 1)) 1) /\
    Z.of_nat (length (RangeTree.nodes s)) = RangeTree.TREE_SIZE Contest.D /\
    RangeTree.nodes s !! Z.to_nat 0 = Some (odd_junk 0%nat).
Proof.
  destruct (constructor_fills_slots_1_to_end Contest.D odd_junk)
    as (s & Hrun & Hlen & H0 & _).
  - unfold depth_ok, Contest.D. lia.
  - exists s. split; [exact Hrun|]. split; [exact Hlen | exact H0].
Defined.

(** X11 (zero state).  On a freshly constructed tree [sum] returns 0 for
    every bound of [[0, MAX_LEAVES]], whatever the storage held before. *)
Theorem fresh_tree_sums_to_zero D junk k :
  depth_ok D -> 0 <= k <= RangeTree.MAX_LEAVES D ->
  RangeTree.query D junk [] k = Some 0.
Proof.
  intros HD Hk. destruct (constants D HD) as (HM & _). rewrite HM in Hk.
  destruct (Z.eq_dec k 0) as [->|Hk0].
  - destruct (after_spec D junk [] HD eq_refl) as (s & Hafter & Hs & Hv).
    unfold RangeTree.query. rewrite Hafter.
    destruct (Z.eq_dec D 0) as [->|HD1].
    + now rewrite sum_zero_flat.
    + rewrite (sum_zero D [] s HD ltac:(unfold depth_ok in HD; lia) Hs Hv).
      reflexivity.
  - rewrite query_spec by (trivial; lia). reflexivity.
Qed.

Lemma fresh_tree_sums_to_zero_witness :
  RangeTree.query Contest.D odd_junk [] 65536 = Some 0.
Proof.
  apply (fresh_tree_sums_to_zero Contest.D odd_junk 65536).
  - unfold depth_ok, Contest.D. lia.
  - change (RangeTree.MAX_LEAVES Contest.D) with 65536. lia.
Defined.

(** X12 (the range idiom).  On a tree reached by valid inserts, for
    [1 <= lo <= hi <= MAX_LEAVES], the idiom [sum(hi) - sum(lo)] of the
    comment above [sum] gives the [int] sum of the deltas inserted at the
    leaves of [[lo, hi)], and leaves the tree as it was. *)
Theorem range_idiom D junk ops lo hi :
  depth_ok D -> valid_ops D ops = true ->
  1 <= lo -> lo <= hi -> hi <= RangeTree.MAX_LEAVES D ->
  exists s lg,
    RangeTree.after D junk ops = Some s /\
    RangeTree.range_sum D lo hi s = Some (Int.wrap (range_total lo hi ops), s, lg).
Proof.
  intros HD Hok Hlo Hle Hhi. destruct (constants D HD) as (HM & _).
  rewrite HM in Hhi.
  destruct (after_spec D junk ops HD Hok) as (s & Hafter & Hs & Hv).
  destruct (sum_prefix D ops s hi HD Hs Hv ltac:(lia)) as (lgh & Hh & _).
  destruct (sum_prefix D ops s lo HD Hs Hv ltac:(lia)) as (lgl & Hl & _).
  exists s, (lgh ++ lgl ++ []). split; [exact Hafter|].
  unfold RangeTree.range_sum, RangeTree.bind. rewrite Hh. cbv beta iota.
  rewrite Hl. cbv beta iota. unfold RangeTree.ret.
  rewrite sub_wrap, (range_total_split 0 lo hi) by lia.
  do 4 f_equal. lia.
Qed.

Lemma range_idiom_witness :
  exists s lg,
    RangeTree.after Contest.D zero_junk scenario = Some s /\
    RangeTree.range_sum Contest.D 4 7 s = Some (10, s, lg).
Proof.
  apply (range_idiom Contest.D zero_junk scenario 4 7).
  - unfold depth_ok, Contest.D. lia.
  - reflexivity.
  - lia.
  - lia.
  - change (RangeTree.MAX_LEAVES Contest.D) with 65536. lia.
Defined.

(** X13 (the range idiom from leaf 0).  With [lo == 0] the idiom does not
    give the sum over [[0, hi)]: as [sum(0)] returns the total of all
    deltas, [sum(hi) - sum(0)] is the prefix sum below [hi] minus that
    total (in [int]), for every [hi] of [[1, MAX_LEAVES]] and depth at
    least 1. *)
Theorem range_idiom_from_zero D junk ops hi :
  depth_ok D -> 1 <= D -> valid_ops D ops = true ->
  1 <= hi <= RangeTree.MAX_LEAVES D ->
  exists s lg,
    RangeTree.after D junk ops = Some s /\
    RangeTree.range_sum D 0 hi s
    = Some (Int.wrap (prefix_total hi ops - grand_total ops), s, lg).
Proof.
  intros HD HD1 Hok Hhi. destruct (constants D HD) as (HM & _).
  rewrite HM in Hhi.
  destruct (after_spec D junk ops HD Hok) as (s & Hafter & Hs & Hv).
  destruct (sum_prefix D ops s hi HD Hs Hv ltac:(lia)) as (lgh & Hh & _).
  pose proof (sum_zero D ops s HD HD1 Hs Hv) as H0.
  eexists s, _. split; [exact Hafter|].
  unfold RangeTree.range_sum, RangeTree.bind. rewrite Hh. cbv beta iota.
  rewrite H0. cbv beta iota. unfold RangeTree.ret.
  rewrite sub_wrap, (prefix_total_range D ops hi Hok).
  rewrite <- HM, (range_total_all D ops Hok). reflexivity.
Qed.

Lemma range_idiom_from_zero_witness :
  exists s lg,
    RangeTree.after Contest.D zero_junk scenario = Some s /\
    RangeTree.range_sum Contest.D 0 4 s = Some (-10, s, lg).
Proof.
  apply (range_idiom_from_zero Contest.D zero_junk scenario 4).
  - unfold depth_ok, Contest.D. lia.
  - unfold Contest.D. lia.
  - reflexivity.
  - change (RangeTree.MAX_LEAVES Contest.D) with 65536. lia.
Defined.

(** X14 ([sum] after one more [insert]).  On a tree reached by valid
    inserts, for a bound [k] of [[1, MAX_LEAVES]]: after [insert(li, v)]
    the value of [sum(k)] is the value before plus [v] (in [int]) when
    [li < k], and the value before when [li >= k]. *)
Theorem sum_after_insert D junk ops li v k :
  depth_ok D -> valid_ops D ops = true ->
  0 <= li < RangeTree.MAX_LEAVES D -> 1 <= k <= RangeTree.MAX_LEAVES D ->
  exists r,
    RangeTree.query D junk ops k = Some r /\
    RangeTree.query D junk (ops ++ [(li, v)]) k
    = Some (if li <? k then Int.add r v else r).
Proof.
  intros HD Hok Hli Hk.
  pose proof (valid_ops_snoc D ops li v HD Hok Hli) as Hok'.
  destruct (constants D HD) as (HM & _). rewrite HM in Hli, Hk.
  rewrite !query_spec by assumption.
  eexists. split; [reflexivity|]. rewrite range_total_snoc.
  destruct (Z.leb_spec 0 li); [|lia]. cbn [andb].
  destruct (li <? k).
  - unfold Int.add. now rewrite wrap_add_l.
  - now rewrite Z.add_0_r.
Qed.

Lemma sum_after_insert_witness :
  exists r,
    RangeTree.query Contest.D zero_junk scenario 7 = Some r /\
    RangeTree.query Contest.D zero_junk (scenario ++ [(9, -4)]) 7
    = Some (if 9 <? 7 then Int.add r (-4) else r).
Proof.
  apply (sum_after_insert Contest.D zero_junk scenario 9 (-4) 7).
  - unfold depth_ok, Contest.D. lia.
  - reflexivity.
  - change (RangeTree.MAX_LEAVES Contest.D) with 65536. lia.
  - change (RangeTree.MAX_LEAVES Contest.D) with 65536. lia.
Defined.

Module CostFacts.
Import Int IntFacts Shape ShapeFacts NodeFacts RangeTree TreeFacts.

(** The number of array reads left in the loop of [sum]: at most three
    per level still to climb, and two at the node where the loop stops. *)
Lemma sum_loop_cost D s ub :
  depth_ok D -> shaped D s -> 1 <= ub <= 2 ^ D ->
  forall fuel ni acc r s' lg,
    1 <= ni < 2 ^ (D + 1) ->
    up D ni <= ub < up D ni + size D ni * (1 + ni mod 2) ->
    sum_loop D fuel ub ni acc s = Some (r, s', lg) ->
    Z.of_nat (length lg) + 2 * (ni mod 2)
    <= 3 * Z.log2 ni + 2 + 2 * (if ni =? 1 then 1 else 0).
Proof.
  intros HD Hs Hub.
  assert (0 <= D) as HD0 by (unfold depth_ok in HD; lia).
  induction fuel as [|fuel IH]; intros ni acc r s' lg Hni Hinv Hrun;
    [discriminate|].
  rewrite sum_loop_S in Hrun.
  destruct (Z.gtb_spec ni 0) as [_|]; [|lia].
  destruct (sum_body_cases D s ub ni acc HD Hs Hni) as (c & lg0 & Hbody & Hcase).
  unfold bind in Hrun. rewrite Hbody in Hrun. cbv beta iota in Hrun.
  destruct (range_bounds D ni HD0 Hni) as (Hp0 & Hsz & Hul & Hlo & Hup & _).
  pose proof (Z.mod_pos_bound ni 2 ltac:(lia)) as Hmod.
  pose proof (Z.log2_nonneg ni) as Hl0.
  destruct Hcase as [(-> & -> & Hgt & Hclimb)
                    | (n & Hn & -> & Hwhy & Hstep)].
  - destruct (parent_range D ni HD0 ltac:(lia)) as (Hpr & Hlt & Hpsz & Hpup & _).
    assert (ni mod 2 = 1) as Hodd.
    { destruct (Z.eq_dec (ni mod 2) 0) as [E|E]; [|lia].
      rewrite E in Hinv, Hpup. lia. }
    rewrite Hodd in Hinv, Hpup.
    destruct (sum_loop D fuel ub (ni / 2) acc s) as [[[r1 s1] l1]|] eqn:E1;
      [|discriminate].
    injection Hrun as _ _ <-.
    pose proof (Z.mod_pos_bound (ni / 2) 2 ltac:(lia)) as Hmodp.
    assert (up D (ni / 2) <= ub < up D (ni / 2) + size D (ni / 2) * (1 + (ni / 2) mod 2))
      as Hinvp by nia.
    pose proof (IH (ni / 2) acc r1 s1 l1 Hpr Hinvp E1) as Hcost.
    pose proof (log2_half ni ltac:(lia)) as Hh.
    pose proof (Z.log2_nonneg (ni / 2)) as Hpl0.
    rewrite Hh in Hcost.
    destruct (Z.eqb_spec ni 1); [lia|].
    rewrite Hodd. cbn [app length]. rewrite Nat2Z.inj_succ.
    destruct (Z.eqb_spec (ni / 2) 1) as [E|E]; [|lia].
    rewrite E in Hcost. change (1 mod 2) with 1 in Hcost. lia.
  - destruct Hstep as [(-> & Hpos) | (-> & Hpos)].
    + destruct (left_range D ni HD0 Hni Hpos) as (Hl1 & Hll & _ & Hlsz & Hlup).
      assert (ni mod 2 = 0) as Heven.
      { destruct Hwhy as [->|[Hgt Hover]]; [cbn in Hpos; lia|].
        destruct (parent_range D ni HD0 ltac:(lia)) as (_ & _ & _ & Hpup & _).
        nia. }
      assert ((ni - 1) mod 2 = 1) as Hodd.
      { pose proof (Z.div_mod ni 2 ltac:(lia)).
        symmetry. apply (Z.mod_unique (ni - 1) 2 (ni / 2 - 1) 1); lia. }
      assert (ni <> 2) as Hne2.
      { intros E. rewrite E in Hpos. change (pos 2) with 0 in Hpos. lia. }
      destruct (sum_loop D fuel ub (ni - 1) _ s) as [[[r1 s1] l1]|] eqn:E1;
        [|discriminate].
      injection Hrun as _ _ <-.
      assert (up D (ni - 1) <= ub
              < up D (ni - 1) + size D (ni - 1) * (1 + (ni - 1) mod 2)) as Hinvl.
      { rewrite Hlup, Hlsz, Hodd. rewrite Heven in Hinv. nia. }
      pose proof (IH (ni - 1) _ r1 s1 l1 ltac:(lia) Hinvl E1) as Hcost.
      rewrite Hll, Hodd in Hcost.
      pose proof (Z.div_mod ni 2 ltac:(lia)).
      destruct (Z.eqb_spec (ni - 1) 1); [lia|].
      destruct (Z.eqb_spec ni 1); [lia|].
      rewrite Heven. cbn [app length]. rewrite !Nat2Z.inj_succ. lia.
    + injection Hrun as _ _ <-. cbn [app length].
      destruct (Z.eqb_spec ni 1) as [->|Hne]; [cbn; lia|].
      destruct Hwhy as [->|[Hgt Hover]]; [lia|].
      destruct (parent_range D ni HD0 ltac:(lia)) as (_ & _ & _ & Hpup & _).
      assert (ni mod 2 = 0) as Heven by nia.
      rewrite Heven. cbn. lia.
Qed.

End CostFacts.

Import CostFacts.

(** X15 (cost of [sum]).  On a tree reached by valid inserts and for a
    bound in [[1, MAX_LEAVES]], a call of [sum] reads at most [3 * D + 2]
    array slots. *)
Theorem sum_reads_at_most_3D_plus_2_slots D junk ops ub :
  depth_ok D -> valid_ops D ops = true -> 1 <= ub <= RangeTree.MAX_LEAVES D ->
  exists s r lg,
    RangeTree.after D junk ops = Some s /\
    RangeTree.sum D ub s = Some (r, s, lg) /\
    Z.of_nat (length lg) <= 3 * D + 2.
Proof.
  intros HD Hok Hub. destruct (constants D HD) as (HM & _ & HN & HN2).
  rewrite HM in Hub.
  assert (0 <= D) as HD0 by (unfold depth_ok in HD; lia).
  destruct (after_spec D junk ops HD Hok) as (s & Hafter & Hs & Hv).
  destruct (sum_prefix D ops s ub HD Hs Hv Hub) as (lg & Hsum & _).
  eexists s, _, lg. split; [exact Hafter|]. split; [exact Hsum|].
  unfold RangeTree.sum in Hsum. rewrite sum_start_eq in Hsum by (trivial; lia).
  destruct (leaf_range D (ub - 1 + 2 ^ D) HD0 ltac:(lia)) as (Hlog & Hsz & _ & Hup).
  pose proof (Z.mod_pos_bound (ub - 1 + 2 ^ D) 2 ltac:(lia)) as Hmod.
  assert (1 <= ub - 1 + 2 ^ D < 2 ^ (D + 1)) as Hr by lia.
  assert (Shape.up D (ub - 1 + 2 ^ D) <= ub
          < Shape.up D (ub - 1 + 2 ^ D)
            + Shape.size D (ub - 1 + 2 ^ D) * (1 + (ub - 1 + 2 ^ D) mod 2)) as Hi
    by (rewrite Hup, Hsz; lia).
  pose proof (sum_loop_cost D s ub HD Hs Hub _ _ _ _ _ _ Hr Hi Hsum) as Hcost.
  rewrite Hlog in Hcost.
  destruct (Z.eqb_spec (ub - 1 + 2 ^ D) 1) as [E|E]; [|lia].
  assert (D = 0) as -> by (destruct (Z.eq_dec D 0); [assumption|];
    assert (2 ^ 1 <= 2 ^ D) by (apply Z.pow_le_mono_r; lia);
    change (2 ^ 1) with 2 in *; lia).
  rewrite E in Hcost. change (1 mod 2) with 1 in Hcost. lia.
Qed.

Lemma sum_reads_at_most_3D_plus_2_slots_witness :
  exists s r lg,
    RangeTree.after Contest.D zero_junk scenario = Some s /\
    RangeTree.sum Contest.D 7 s = Some (r, s, lg) /\
    Z.of_nat (length lg) <= 3 * Contest.D + 2.
Proof.
  apply (sum_reads_at_most_3D_plus_2_slots Contest.D zero_junk scenario 7).
  - unfold depth_ok, Contest.D. lia.
  - reflexivity.
  - change (RangeTree.MAX_LEAVES Contest.D) with 65536. lia.
Defined.

(** X16 ([insert] above the last leaf).  [insert] does not check its leaf
    index.  For [li >= MAX_LEAVES] (with [li + MAX_LEAVES] still an [int])
    the first slot it indexes, [li + MAX_LEAVES], is past the end of the
    array; the model stops there, before any write. *)
Theorem insert_past_the_last_leaf_is_out_of_bounds D junk ops li v :
  depth_ok D -> valid_ops D ops = true ->
  RangeTree.MAX_LEAVES D <= li -> li + RangeTree.MAX_LEAVES D <= Int.max_int ->
  exists s,
    RangeTree.after D junk ops = Some s /\
    Z.of_nat (length (RangeTree.nodes s)) <= RangeTree.node_i D li /\
    RangeTree.load (RangeTree.node_i D li) s = None /\
    RangeTree.insert D li v s = None.
Proof.
  intros HD Hok Hlo Hhi. destruct (constants D HD) as (HM & _ & HN & HN2).
  rewrite HM in Hlo, Hhi.
  destruct (after_spec D junk ops HD Hok) as (s & Hafter & [Hlen _] & _).
  assert (RangeTree.node_i D li = li + 2 ^ D) as Hni.
  { unfold RangeTree.node_i. rewrite HM. apply add_small. fits. }
  assert (RangeTree.load (li + 2 ^ D) s = None) as Hload.
  { unfold RangeTree.load. destruct (Z.leb_spec 0 (li + 2 ^ D)); [|reflexivity].
    now rewrite lookup_ge_None_2 by lia. }
  exists s. split; [exact Hafter|]. rewrite Hni. split; [lia|].
  split; [exact Hload|].
  unfold RangeTree.insert. rewrite Hni. unfold RangeTree.fuel_for.
  cbn [RangeTree.insert_loop].
  destruct (Z.gtb_spec (li + 2 ^ D) 0); [|lia].
  unfold RangeTree.bind. now rewrite Hload.
Qed.

Lemma insert_past_the_last_leaf_is_out_of_bounds_witness :
  exists s,
    RangeTree.after Contest.D zero_junk scenario = Some s /\
    RangeTree.insert Contest.D 65536 1 s = None.
Proof.
  destruct (insert_past_the_last_leaf_is_out_of_bounds
              Contest.D zero_junk scenario 65536 1)
    as (s & Hafter & _ & _ & Hins).
  - unfold depth_ok, Contest.D. lia.
  - reflexivity.
  - change (RangeTree.MAX_LEAVES Contest.D) with 65536. lia.
  - change (RangeTree.MAX_LEAVES Contest.D) with 65536. unfold Int.max_int. lia.
  - exists s. split; [exact Hafter | exact Hins].
Defined.



Module BoundFacts.
Import Int IntFacts IntMore Shape ShapeFacts NodeFacts TotalFacts.
Import RangeTree TreeFacts.

Lemma sum_start_any D ub :
  depth_ok D -> in_range (ub - 1 + 2 ^ D) -> sum_start D ub = ub - 1 + 2 ^ D.
Proof.
  intros HD Hfit. destruct (constants D HD) as (HM & _).
  unfold sum_start, Int.add, Int.sub. rewrite HM, wrap_add_l.
  now apply wrap_small.
Qed.



End BoundFacts.

Import BoundFacts.



(** X19 ([sum] with a bound above [3 * MAX_LEAVES]).  For such a bound
    (with [upperBound - 1 + MAX_LEAVES] still an [int]) the first slot that
    [sum] indexes, the parent of its start slot, is past the end of the
    array; the model stops there. *)
Theorem sum_far_above_max_leaves_is_out_of_bounds D junk ops ub :
  depth_ok D -> valid_ops D ops = true ->
  3 * RangeTree.MAX_LEAVES D < ub ->
  ub - 1 + RangeTree.MAX_LEAVES D <= Int.max_int ->
  exists s,
    RangeTree.after D junk ops = Some s /\
    Z.of_nat (length (RangeTree.nodes s)) <= Int.shr (RangeTree.sum_start D ub) 1 /\
    RangeTree.load (Int.shr (RangeTree.sum_start D ub) 1) s = None /\
    RangeTree.sum D ub s = None.
Proof.
  intros HD Hok Hlo Hhi. destruct (constants D HD) as (HM & _ & HN & HN2).
  rewrite HM in Hlo, Hhi.
  destruct (after_spec D junk ops HD Hok) as (s & Hafter & [Hlen _] & _).
  unfold RangeTree.sum. rewrite sum_start_any by (trivial; fits).
  set (ni := ub - 1 + 2 ^ D).
  assert (2 * 2 ^ (D + 1) <= ni) as Hni by (unfold ni; lia).
  pose proof (Z.div_mod ni 2 ltac:(lia)) as Hdm.
  pose proof (Z.mod_pos_bound ni 2 ltac:(lia)) as Hmb.
  rewrite shr_1.
  assert (RangeTree.load (ni / 2) s = None) as Hload.
  { unfold RangeTree.load. destruct (Z.leb_spec 0 (ni / 2)); [|reflexivity].
    now rewrite lookup_ge_None_2 by lia. }
  exists s. split; [exact Hafter|]. split; [lia|]. split; [exact Hload|].
  unfold RangeTree.fuel_for. rewrite sum_loop_S.
  destruct (Z.gtb_spec ni 0) as [_|]; [|lia].
  unfold RangeTree.sum_body. cbv zeta. rewrite shr_1.
  unfold RangeTree.bind. now rewrite Hload.
Qed.

Lemma sum_far_above_max_leaves_is_out_of_bounds_witness :
  exists s,
    RangeTree.after Contest.D zero_junk scenario = Some s /\
    RangeTree.sum Contest.D 200000 s = None.
Proof.
  destruct (sum_far_above_max_leaves_is_out_of_bounds
              Contest.D zero_junk scenario 200000)
    as (s & Hafter & _ & _ & Hsum).
  - unfold depth_ok, Contest.D. lia.
  - reflexivity.
  - change (RangeTree.MAX_LEAVES Contest.D) with 65536. lia.
  - change (RangeTree.MAX_LEAVES Contest.D) with 65536. unfold Int.max_int. lia.
  - exists s. split; [exact Hafter | exact Hsum].
Defined.



(** X21 ([Node(int)] on any [int]).  For every [int] [_ni] the halving
    loop of [Node(int _ni)] ends and no counter overflows: the level it
    finds is the number of halvings that take [_ni] down to 1, which is
    [floor(log2 _ni)] and at most 30, and is 0 for every [_ni <= 1],
    negative ones included; [ni] is [_ni] and [val] is 0. *)
Theorem slow_constructor_on_any_int _ni :
  Int.in_range _ni ->
  exists n,
    Node.make_slow _ni = Some n /\
    Node.ni n = _ni /\ Node.val n = 0 /\
    0 <= Node.level n <= 30 /\
    (_ni <= 1 -> Node.level n = 0) /\
    (1 <= _ni -> 2 ^ Node.level n <= _ni < 2 ^ (Node.level n + 1)).
Proof.
  intros Hfit. unfold Int.in_range, Int.min_int, Int.max_int in Hfit.
  exists (Node.make (Z.log2 _ni) _ni).
  cbn [Node.ni Node.val Node.level Node.make].
  pose proof (Z.log2_nonneg _ni) as Hl0.
  destruct (Z_lt_le_dec _ni 1) as [Hneg|Hpos].
  - rewrite (Z.log2_nonpos _ni) by lia.
    split.
    { unfold Node.make_slow. replace (Z.to_nat _ni) with 0%nat by lia.
      cbn [Node.slow_loop]. destruct (Z.gtb_spec _ni 1); [lia | reflexivity]. }
    repeat split; lia.
  - assert (Z.log2 _ni < 31) as Hl31 by (apply Z.log2_lt_pow2; lia).
    pose proof (Z.log2_spec _ni ltac:(lia)) as Hspec.
    split.
    { unfold Node.make_slow.
      rewrite slow_loop_spec; [reflexivity | lia | lia | lia |].
      unfold Int.max_int. lia. }
    split; [reflexivity|]. split; [reflexivity|]. split; [lia|]. split.
    + intros Hle. replace _ni with 1 by lia. reflexivity.
    + intros _. replace (Z.log2 _ni + 1) with (Z.succ (Z.log2 _ni)) by lia.
      exact Hspec.
Qed.

Lemma slow_constructor_on_any_int_witness :
  exists n,
    Node.make_slow 2147483647 = Some n /\
    Node.ni n = 2147483647 /\ Node.val n = 0 /\
    0 <= Node.level n <= 30.
Proof.
  destruct (slow_constructor_on_any_int 2147483647)
    as (n & Hrun & Hni & Hval & Hlvl & _).
  - unfold Int.in_range, Int.min_int, Int.max_int. lia.
  - exists n. split; [exact Hrun|]. split; [exact Hni|]. split; [exact Hval | exact Hlvl].
Defined.

Lemma insert_never_touches_slot_0_witness :
  exists s s' lg,
    RangeTree.after Contest.D zero_junk scenario = Some s /\
    RangeTree.insert Contest.D 9 (-4) s = Some (tt, s', lg) /\
    Forall (fun a => 1 <= RangeTree.slot_of a < RangeTree.TREE_SIZE Contest.D) lg.
Proof.
  apply (insert_never_touches_slot_0 Contest.D zero_junk scenario 9 (-4)).
  - unfold depth_ok, Contest.D. lia.
  - reflexivity.
  - change (RangeTree.MAX_LEAVES Contest.D) with 65536. lia.
Defined.

Lemma partial_sum_never_touches_slot_0_witness :
  exists s r lg,
    RangeTree.after Contest.D zero_junk scenario = Some s /\
    RangeTree.sum Contest.D 7 s = Some (r, s, lg) /\
    Forall (fun a => 1 <= RangeTree.slot_of a < RangeTree.TREE_SIZE Contest.D) lg.
Proof.
  apply (partial_sum_never_touches_slot_0 Contest.D zero_junk scenario 7).
  - unfold depth_ok, Contest.D. lia.
  - reflexivity.
  - change (RangeTree.MAX_LEAVES Contest.D) with 65536. lia.
Defined.
